(** * The block request scheduler of libtransmission/peer-mgr-wishlist.cc

    A shallow embedding of the wishlist (candidate enumeration, candidate
    ordering, slow-request preemption, block mining loop and span packer)
    together with the properties its specification states about it.

    Machine integers are embedded in [Z]; where the C++ type wraps, the
    wrap-around is written out.  The target is LP64: [tr_piece_index_t]
    and [tr_block_index_t] are [uint32_t] (transmission.h), [size_t] and
    with it [tr_bytes_per_second_t] are 64-bit unsigned, [time_t] is
    64-bit signed and [int] is 32-bit signed; a conversion to a narrower
    or unsigned type keeps the low bits.

    The calls on the mediator are effects: a computation is a function of
    the state of the transfer that yields its result, the state it leaves
    and the log of the calls it made. *)

From Stdlib Require Import ZArith List Bool Lia Sorted Permutation.
Import ListNotations.

Local Open Scope Z_scope.

(** ** Machine integers *)

Module Int.

Definition u32_mod : Z := 2 ^ 32.
Definition u64_mod : Z := 2 ^ 64.

(** Value of an unsigned 32-bit / 64-bit computation. *)
Definition u32 (x : Z) : Z := x mod u32_mod.
Definition u64 (x : Z) : Z := x mod u64_mod.

(** Conversion of an integer to [int]: the low 32 bits, read as two's
    complement. *)
Definition to_int (x : Z) : Z :=
  let r := x mod u32_mod in
  if r <? 2 ^ 31 then r else r - u32_mod.

(** The largest value of [tr_block_index_t]. *)
Definition UINT32_MAX : Z := u32_mod - 1.

End Int.

(** ** Half-open block ranges *)

(** The block indices [lo, lo+1, ..., hi-1]; empty when [hi <= lo]. *)
Definition range (lo hi : Z) : list Z :=
  map (fun i => lo + Z.of_nat i) (seq 0 (Z.to_nat (hi - lo))).

(** ** Block spans and the span packer *)

(** [tr_block_span_t]: a half-open interval of block indices. *)
Record tr_block_span_t : Type := mkSpan { span_begin : Z; span_end : Z }.

(** The block indices a span stands for, and those of a span list. *)
Definition expand_span (s : tr_block_span_t) : list Z :=
  range (span_begin s) (span_end s).

Definition expand (spans : list tr_block_span_t) : list Z :=
  flat_map expand_span spans.

(** Number of block indices covered by a span list. *)
Definition span_total (spans : list tr_block_span_t) : Z :=
  fold_right (fun s acc => (span_end s - span_begin s) + acc) 0 spans.

(** The span that holds the single block [b]:
    [tr_block_span_t{ b, b + 1 }], the sum taken in [tr_block_index_t]. *)
Definition single (b : Z) : tr_block_span_t := mkSpan b (Int.u32 (b + 1)).

(** The loop of [makeSpans] over [sorted_blocks[1..]]: [cur] is the span
    being grown and [spans] the vector of spans pushed so far. *)
Fixpoint makeSpans_loop (blocks : list Z) (cur : tr_block_span_t)
    (spans : list tr_block_span_t) : list tr_block_span_t :=
  match blocks with
  | [] => spans ++ [cur]
  | b :: rest =>
      if span_end cur =? b
      then makeSpans_loop rest
             (mkSpan (span_begin cur) (Int.u32 (span_end cur + 1))) spans
      else makeSpans_loop rest (single b) (spans ++ [cur])
  end.

Definition makeSpans (sorted_blocks : list Z) : list tr_block_span_t :=
  match sorted_blocks with
  | [] => []
  | b0 :: rest => makeSpans_loop rest (single b0) []
  end.

(** ** Candidates and their order *)

Module Candidate.

(** [struct Candidate]: a wanted piece with its ranking keys. *)
Record t : Type := mk {
  piece : Z;             (* tr_piece_index_t *)
  n_blocks_missing : Z;  (* size_t *)
  priority : Z;          (* tr_priority_t *)
  salt : Z               (* SaltType = tr_piece_index_t *)
}.

(** [Candidate::compare]: three-way comparison, [-1], [0] or [1]. *)
Definition compare (this that : t) : Z :=
  if negb (n_blocks_missing this =? n_blocks_missing that)
  then (if n_blocks_missing this <? n_blocks_missing that then -1 else 1)
  else if negb (priority this =? priority that)
  then (if priority that <? priority this then -1 else 1)
  else if negb (salt this =? salt that)
  then (if salt this <? salt that then -1 else 1)
  else 0.

(** [Candidate::operator<]. *)
Definition less (this that : t) : bool := compare this that <? 0.

(** The least-first order in words: fewer missing blocks first, then the
    larger priority, then the smaller salt. *)
Definition precedes (a b : t) : Prop :=
  n_blocks_missing a < n_blocks_missing b
  \/ (n_blocks_missing a = n_blocks_missing b /\ priority b < priority a)
  \/ (n_blocks_missing a = n_blocks_missing b /\ priority a = priority b
      /\ salt a < salt b).

(** A range is sorted for [operator<] when no later element is less than an
    earlier one. *)
Definition sorted (l : list t) : Prop :=
  StronglySorted (fun a b => less b a = false) l.

End Candidate.

(** ** The mediator and the run-time environment *)

(** A call the wishlist makes on its mediator, with the answer it got.
    [CancelRequestForBlock] is the one call that changes the transfer's
    state. *)
Inductive Event (Peer : Type) : Type :=
| CountAllPieces (r : Z)
| ClientCanRequestPiece (p : Z) (r : bool)
| CountMissingBlocks (p : Z) (r : Z)
| Priority (p : Z) (r : Z)
| BlockSpan (p : Z) (r : Z * Z)
| ClientCanRequestBlock (b : Z) (r : bool)
| CountActiveRequests (b : Z) (r : Z)
| GetPeersForActiveRequests (b : Z) (r : list (Peer * Z))
| IsSequentialDownload (r : bool)
| SequentialDownloadFromPiece (r : Z)
| IsEndgame (r : bool)
| CancelRequestForBlock (peer : Peer) (b : Z).

Arguments CountAllPieces {Peer} r.
Arguments ClientCanRequestPiece {Peer} p r.
Arguments CountMissingBlocks {Peer} p r.
Arguments Priority {Peer} p r.
Arguments BlockSpan {Peer} p r.
Arguments ClientCanRequestBlock {Peer} b r.
Arguments CountActiveRequests {Peer} b r.
Arguments GetPeersForActiveRequests {Peer} b r.
Arguments IsSequentialDownload {Peer} r.
Arguments SequentialDownloadFromPiece {Peer} r.
Arguments IsEndgame {Peer} r.
Arguments CancelRequestForBlock {Peer} peer b.

(** [Wishlist::Mediator]: the queries of the abstract interface, each a
    function of the state [World] of the transfer at the time of the call.
    The two laws record what the return types give: a block span is a pair
    of [tr_block_index_t], a missing-block count is a [size_t]. *)
Class Mediator (World Peer : Type) : Type := {
  countAllPieces : World -> Z;
  clientCanRequestPiece : World -> Z -> bool;
  countMissingBlocks : World -> Z -> Z;
  priority : World -> Z -> Z;
  blockSpan : World -> Z -> Z * Z;
  clientCanRequestBlock : World -> Z -> bool;
  countActiveRequests : World -> Z -> Z;
  getPeersForActiveRequests : World -> Z -> list (Peer * Z);
  isSequentialDownload : World -> bool;
  sequentialDownloadFromPiece : World -> Z;
  isEndgame : World -> bool;
  blockSpan_range : forall w p,
    0 <= fst (blockSpan w p) /\ snd (blockSpan w p) <= Int.UINT32_MAX;
  countMissingBlocks_range : forall w p, 0 <= countMissingBlocks w p
}.

(** What the file uses besides the mediator: the clock, the peers' measured
    speed, the free function [tr_cancelRequestForBlock], the salt shaker of
    crypto-utils.h and [std::partial_sort].

    [tr_salt_shaker k] is the [k]-th value drawn from the shaker that one
    call constructs.  [partial_sort middle l] is
    [std::partial_sort(first, first + middle, last)] for [operator<] of
    [Candidate]; its laws are those of the C++ standard: the result is a
    rearrangement of the input, its first [middle] elements are sorted, and
    none of the others is less than one of them. *)
Class Runtime (World Peer : Type) : Type := {
  tr_time : World -> Z;
  get_piece_speed_bytes_per_second : World -> Peer -> Z -> Z;
  tr_cancelRequestForBlock : Peer -> Z -> World -> World;
  tr_salt_shaker : nat -> Z;
  partial_sort : nat -> list Candidate.t -> list Candidate.t;
  partial_sort_perm : forall middle l,
    (middle <= length l)%nat -> Permutation l (partial_sort middle l);
  partial_sort_sorted : forall middle l,
    (middle <= length l)%nat ->
    Candidate.sorted (firstn middle (partial_sort middle l));
  partial_sort_least : forall middle l a b,
    (middle <= length l)%nat ->
    In a (firstn middle (partial_sort middle l)) ->
    In b (skipn middle (partial_sort middle l)) ->
    Candidate.less b a = false
}.

(** Modelled from the spec: [tr_block_info::BlockSize] is declared in
    block-info.h; the specification gives the block size as 16384 bytes. *)
Definition BlockSize : Z := 16384.

(** ** [std::set<tr_block_index_t>] *)

Module BlockSet.

(** The set as the ascending sequence of its elements, which is the order
    its iterators visit. *)
Definition t : Type := list Z.

Definition empty : t := [].

(** [std::set::insert]: puts [b] at its place, and leaves a set that
    already holds [b] as it is. *)
Fixpoint insert (b : Z) (s : t) : t :=
  match s with
  | [] => [b]
  | x :: rest =>
      if b <? x then b :: s
      else if b =? x then s
      else x :: insert b rest
  end.

(** [std::size]. *)
Definition size (s : t) : Z := Z.of_nat (length s).

End BlockSet.

(** [std::rotate(first, first + k, last)]: the element at [k] becomes the
    first one and the elements before it follow the last one. *)
Definition rotate {A : Type} (k : nat) (l : list A) : list A :=
  skipn k l ++ firstn k l.

(** ** Computations that talk to the mediator *)

Section Wishlist.

Context {World Peer : Type}.
Context {mediator_ : Mediator World Peer} {runtime_ : Runtime World Peer}.

(** A computation runs in a state of the transfer and yields its result, the
    state it leaves and the mediator calls it made, in order. *)
Definition M (A : Type) : Type := World -> A * World * list (Event Peer).

Definition ret {A : Type} (a : A) : M A := fun w => (a, w, []).

Definition bind {A B : Type} (m : M A) (k : A -> M B) : M B :=
  fun w =>
    let '(a, w1, t1) := m w in
    let '(b, w2, t2) := k a w1 in
    (b, w2, t1 ++ t2).

(** A mediator query [q], recorded as the event [ev]. *)
Definition ask {A : Type} (q : World -> A) (ev : A -> Event Peer) : M A :=
  fun w => (q w, w, [ev (q w)]).

(** A read of the environment that is not a mediator call. *)
Definition observe {A : Type} (q : World -> A) : M A :=
  fun w => (q w, w, []).

(** The call [tr_cancelRequestForBlock(peer, block)]. *)
Definition cancel (peer : Peer) (block : Z) : M unit :=
  fun w => (tt, tr_cancelRequestForBlock peer block w,
            [CancelRequestForBlock peer block]).

Definition result {A : Type} (r : A * World * list (Event Peer)) : A :=
  fst (fst r).
Definition final {A : Type} (r : A * World * list (Event Peer)) : World :=
  snd (fst r).
Definition calls {A : Type} (r : A * World * list (Event Peer))
  : list (Event Peer) := snd r.

Local Notation "x <- m ;; k" := (bind m (fun x => k))
  (at level 61, m at next level, right associativity).
Local Notation "m ;;; k" := (bind m (fun _ => k))
  (at level 61, right associativity).

(** ** [getCandidates] *)

(** The loop that collects the wanted pieces: [pieces] are the indices
    still to visit. *)
Fixpoint wanted_loop (pieces : list Z) (wanted_pieces : list (Z * Z))
  : M (list (Z * Z)) :=
  match pieces with
  | [] => ret wanted_pieces
  | i :: rest =>
      can <- ask (fun w => clientCanRequestPiece w i)
                 (ClientCanRequestPiece i) ;;
      if negb can then wanted_loop rest wanted_pieces
      else
        n_missing <- ask (fun w => countMissingBlocks w i)
                         (CountMissingBlocks i) ;;
        if n_missing =? 0 then wanted_loop rest wanted_pieces
        else wanted_loop rest (wanted_pieces ++ [(i, n_missing)])
  end.

(** The loop that turns wanted pieces into candidates; [draws] counts the
    salts taken from the shaker so far. *)
Fixpoint candidates_loop (is_sequential : bool) (wanted_pieces : list (Z * Z))
    (draws : nat) (candidates : list Candidate.t) : M (list Candidate.t) :=
  match wanted_pieces with
  | [] => ret candidates
  | (piece, n_missing) :: rest =>
      let salt := if is_sequential then piece else tr_salt_shaker draws in
      let draws' := if is_sequential then draws else S draws in
      prio <- ask (fun w => priority w piece) (Priority piece) ;;
      candidates_loop is_sequential rest draws'
        (candidates ++ [Candidate.mk piece n_missing prio salt])
  end.

(** The wanted pieces after the rotation step. *)
Definition rotate_wanted (is_sequential : bool) (sequential_from_piece : Z)
    (wanted_pieces : list (Z * Z)) : list (Z * Z) :=
  if is_sequential && (0 <? sequential_from_piece)
     && (sequential_from_piece <? Z.of_nat (length wanted_pieces))
  then rotate (Z.to_nat sequential_from_piece) wanted_pieces
  else wanted_pieces.

Definition getCandidates : M (list Candidate.t) :=
  n_pieces <- ask countAllPieces CountAllPieces ;;
  wanted_pieces <- wanted_loop (range 0 n_pieces) [] ;;
  is_sequential <- ask isSequentialDownload IsSequentialDownload ;;
  sequential_from_piece <-
    ask sequentialDownloadFromPiece SequentialDownloadFromPiece ;;
  candidates_loop is_sequential
    (rotate_wanted is_sequential sequential_from_piece wanted_pieces) 0 [].

(** ** [cancelSlowRequest] *)

(** The value of [res]: the quotient and the product are taken in 64-bit
    unsigned arithmetic, [now - when] enters the product converted to it,
    and the difference is converted to [int]. *)
Definition slow_score (peer_speed current_peer_speed now when : Z) : Z :=
  Int.to_int
    (Int.u64
       (peer_speed / current_peer_speed
        - Int.u64 (Int.u64 (now - when) * peer_speed) / BlockSize)).

(** [res > 1.5]: [res] is converted to [double] without loss, so the test
    is that of the rationals, [2 * res > 3]. *)
Definition is_slow (res : Z) : bool := 3 <? 2 * res.

Fixpoint cancelSlowRequest_loop (block : Z) (now peer_speed : Z)
    (peers : list (Peer * Z)) : M unit :=
  match peers with
  | [] => ret tt
  | (current_peer, when) :: rest =>
      current_peer_speed <-
        observe
          (fun w => get_piece_speed_bytes_per_second w current_peer now) ;;
      if current_peer_speed =? 0
      then cancelSlowRequest_loop block now peer_speed rest
      else
        let res := slow_score peer_speed current_peer_speed now when in
        if is_slow res
        then cancel current_peer block
        else cancelSlowRequest_loop block now peer_speed rest
  end.

Definition cancelSlowRequest (block : Z) (peer : Peer) : M unit :=
  now <- observe tr_time ;;
  peers <- ask (fun w => getPeersForActiveRequests w block)
               (GetPeersForActiveRequests block) ;;
  peer_speed <-
    observe (fun w => get_piece_speed_bytes_per_second w peer now) ;;
  if peer_speed =? 0 then ret tt
  else cancelSlowRequest_loop block now peer_speed peers.

(** ** [Wishlist::next] *)

(** The preemption step of the block walk. *)
Definition preempt (is_sequential : bool) (block : Z) (peer : Peer) : M unit :=
  if is_sequential
  then
    n <- ask (fun w => countActiveRequests w block)
             (CountActiveRequests block) ;;
    if 0 <? n then cancelSlowRequest block peer else ret tt
  else ret tt.

(** The walk over the blocks of one piece; [todo] are the block indices
    from [block] up to [end]. *)
Fixpoint walk_blocks (n_wanted_blocks : Z) (is_sequential : bool)
    (peer : Peer) (todo : list Z) (blocks : BlockSet.t) : M BlockSet.t :=
  match todo with
  | [] => ret blocks
  | block :: rest =>
      if negb (BlockSet.size blocks <? n_wanted_blocks) then ret blocks
      else
        can <- ask (fun w => clientCanRequestBlock w block)
                   (ClientCanRequestBlock block) ;;
        if negb can
        then walk_blocks n_wanted_blocks is_sequential peer rest blocks
        else
          preempt is_sequential block peer ;;;
          n_peers <- ask (fun w => countActiveRequests w block)
                         (CountActiveRequests block) ;;
          endgame <- ask isEndgame IsEndgame ;;
          let max_peers := if endgame then 2 else 1 in
          if max_peers <=? n_peers
          then walk_blocks n_wanted_blocks is_sequential peer rest blocks
          else walk_blocks n_wanted_blocks is_sequential peer rest
                 (BlockSet.insert block blocks)
  end.

(** The loop over the candidates. *)
Fixpoint walk_candidates (n_wanted_blocks : Z) (is_sequential : bool)
    (peer : Peer) (candidates : list Candidate.t) (blocks : BlockSet.t)
  : M BlockSet.t :=
  match candidates with
  | [] => ret blocks
  | candidate :: rest =>
      if n_wanted_blocks <=? BlockSet.size blocks then ret blocks
      else
        span <- ask (fun w => blockSpan w (Candidate.piece candidate))
                    (BlockSpan (Candidate.piece candidate)) ;;
        blocks' <- walk_blocks n_wanted_blocks is_sequential peer
                     (range (fst span) (snd span)) blocks ;;
        walk_candidates n_wanted_blocks is_sequential peer rest blocks'
  end.

(** [MaxSortedPieces]. *)
Definition MaxSortedPieces : nat := 30.

(** The candidates in the order the loop visits them. *)
Definition order_candidates (is_sequential : bool)
    (candidates : list Candidate.t) : list Candidate.t :=
  if negb is_sequential
  then partial_sort (Nat.min (length candidates) MaxSortedPieces) candidates
  else candidates.

(** The part of [next] that fills the set [blocks]. *)
Definition pick_blocks (n_wanted_blocks : Z) (peer : Peer) : M BlockSet.t :=
  candidates <- getCandidates ;;
  is_sequential <- ask isSequentialDownload IsSequentialDownload ;;
  walk_candidates n_wanted_blocks is_sequential peer
    (order_candidates is_sequential candidates) BlockSet.empty.

Definition next (n_wanted_blocks : Z) (peer : Peer)
  : M (list tr_block_span_t) :=
  if n_wanted_blocks =? 0 then ret []
  else
    blocks <- pick_blocks n_wanted_blocks peer ;;
    ret (makeSpans blocks).

End Wishlist.

Arguments M : clear implicits.

(** * The notions the properties are stated with *)

(** ** Candidates, blocks and spans *)

(** The keys of two candidates agree. *)
Definition same_keys (a b : Candidate.t) : Prop :=
  Candidate.n_blocks_missing a = Candidate.n_blocks_missing b
  /\ Candidate.priority a = Candidate.priority b
  /\ Candidate.salt a = Candidate.salt b.

(** A strictly ascending sequence of blocks. *)
Definition ascending (blocks : list Z) : Prop := StronglySorted Z.lt blocks.

(** Every span holds a block. *)
Definition spans_nonempty (spans : list tr_block_span_t) : Prop :=
  Forall (fun s => span_begin s < span_end s) spans.

(** The spans come in ascending order of [begin]. *)
Definition spans_ascending (spans : list tr_block_span_t) : Prop :=
  StronglySorted (fun s1 s2 => span_begin s1 < span_begin s2) spans.

(** A later span begins after the end of an earlier one, with at least one
    block between them: the spans are disjoint and not adjacent. *)
Definition spans_separated (spans : list tr_block_span_t) : Prop :=
  StronglySorted (fun s1 s2 => span_end s1 < span_begin s2) spans.

(** The expansions of an earlier and of a later span share no block. *)
Definition spans_disjoint (spans : list tr_block_span_t) : Prop :=
  StronglySorted
    (fun s1 s2 => forall b, In b (expand_span s1) -> ~ In b (expand_span s2))
    spans.

Section Notions.

Context {World Peer : Type}.
Context {mediator_ : Mediator World Peer} {runtime_ : Runtime World Peer}.

(** ** The calls of a run *)

(** The duplication limit: two requests in endgame, one otherwise. *)
Definition max_peers (endgame : bool) : Z := if endgame then 2 else 1.

(** In the calls [tr], the count of active requests of [b] that was read
    right before the endgame query, which is the read the duplication check
    uses, was below the limit. *)
Definition under_limit (tr : list (Event Peer)) (b : Z) : Prop :=
  exists n_peers endgame pre post,
    tr = pre ++ CountActiveRequests b n_peers :: IsEndgame endgame :: post
    /\ n_peers < max_peers endgame.

(** In the calls [tr], the mediator said that [b] can be requested, and the
    duplication check let it pass. *)
Definition selected (tr : list (Event Peer)) (b : Z) : Prop :=
  In (ClientCanRequestBlock b true) tr /\ under_limit tr b.

(** A call that only [cancelSlowRequest] makes: its query for the peers
    with an active request, and the cancellation. *)
Definition of_preemption (e : Event Peer) : bool :=
  match e with
  | GetPeersForActiveRequests _ _ | CancelRequestForBlock _ _ => true
  | _ => false
  end.

(** Whether a call is a cancellation. *)
Definition is_cancellation (e : Event Peer) : bool :=
  match e with
  | CancelRequestForBlock _ _ => true
  | _ => false
  end.

(** No call of [tr] is one of [cancelSlowRequest]. *)
Definition quiet (tr : list (Event Peer)) : Prop :=
  Forall (fun e => of_preemption e = false) tr.

(** Every run of [cancelSlowRequest] in [tr], marked by its first call,
    comes right after the mediator said that the block can be requested and
    has [n_active > 0] active requests. *)
Definition guarded (tr : list (Event Peer)) : Prop :=
  forall pre b peers post,
    tr = pre ++ GetPeersForActiveRequests b peers :: post ->
    exists pre' n_active,
      pre = pre' ++ [ClientCanRequestBlock b true;
                     CountActiveRequests b n_active]
      /\ 0 < n_active.

(** The pieces whose block span the loop asked for, in order: the
    candidates it considered. *)
Definition considered (tr : list (Event Peer)) : list Z :=
  flat_map (fun e => match e with BlockSpan p _ => [p] | _ => [] end) tr.

(** ** The states of the transfer *)

(** The set after the duplication check on [block] in the state [w]. *)
Definition after_check (w : World) (block : Z) (blocks : BlockSet.t)
  : BlockSet.t :=
  if (if isEndgame w then 2 else 1) <=? countActiveRequests w block
  then blocks else BlockSet.insert block blocks.

(** The test of the specification on one active request [(P_cur, t)]: the
    current peer has a speed, and the score is above 1.5. *)
Definition slower_than (w : World) (now v_new : Z) (request : Peer * Z)
  : bool :=
  let v_cur := get_piece_speed_bytes_per_second w (fst request) now in
  negb (v_cur =? 0)
  && is_slow (slow_score v_new v_cur now (snd request)).

(** The request the routine cancels, if any: none when the new peer has no
    speed, else the first active request that passes the test. *)
Definition victim (w : World) (block : Z) (peer : Peer) : option (Peer * Z) :=
  let now := tr_time w in
  let v_new := get_piece_speed_bytes_per_second w peer now in
  if v_new =? 0 then None
  else find (slower_than w now v_new) (getPeersForActiveRequests w block).

(** The cancellations the routine makes. *)
Definition cancellations (w : World) (block : Z) (peer : Peer)
  : list (Event Peer) :=
  match victim w block peer with
  | Some (current_peer, _) => [CancelRequestForBlock current_peer block]
  | None => []
  end.

(** Whether piece [i] is wanted in the state [w]. *)
Definition wanted (w : World) (i : Z) : bool :=
  clientCanRequestPiece w i && negb (countMissingBlocks w i =? 0).

(** The wanted pieces among [pieces], each with its missing-block count. *)
Definition wanted_of (w : World) (pieces : list Z) : list (Z * Z) :=
  map (fun i => (i, countMissingBlocks w i)) (filter (wanted w) pieces).

(** The mediator calls of the loop that collects them. *)
Definition wanted_calls (w : World) (pieces : list Z) : list (Event Peer) :=
  flat_map
    (fun i =>
       ClientCanRequestPiece i (clientCanRequestPiece w i)
         :: (if clientCanRequestPiece w i
             then [CountMissingBlocks i (countMissingBlocks w i)]
             else []))
    pieces.

(** The candidates made of the wanted pieces [W]; the [k]-th of them takes
    the salt drawn [draws + k]-th when the download is not sequential. *)
Fixpoint candidates_of (w : World) (is_sequential : bool) (draws : nat)
    (W : list (Z * Z)) : list Candidate.t :=
  match W with
  | [] => []
  | (piece, n_missing) :: rest =>
      Candidate.mk piece n_missing (priority w piece)
        (if is_sequential then piece else tr_salt_shaker draws)
        :: candidates_of w is_sequential
             (if is_sequential then draws else S draws) rest
  end.

(** The wanted pieces of the transfer in the order of the candidates. *)
Definition wanted_pieces_of (w : World) : list (Z * Z) :=
  rotate_wanted (isSequentialDownload w) (sequentialDownloadFromPiece w)
    (wanted_of w (range 0 (countAllPieces w))).

(** The mediator calls of [getCandidates]. *)
Definition getCandidates_calls (w : World) : list (Event Peer) :=
  CountAllPieces (countAllPieces w)
    :: wanted_calls w (range 0 (countAllPieces w))
    ++ IsSequentialDownload (isSequentialDownload w)
    :: SequentialDownloadFromPiece (sequentialDownloadFromPiece w)
    :: map (fun pm => Priority (fst pm) (priority w (fst pm)))
         (wanted_pieces_of w).

(** The candidates of a call in the order the loop visits them. *)
Definition visited (w : World) : list Candidate.t :=
  order_candidates (isSequentialDownload w) (result (getCandidates w)).

(** The event [e] is a query together with the answer that the mediator
    gives to it in the state [w]. *)
Definition answered_in (w : World) (e : Event Peer) : Prop :=
  match e with
  | CountAllPieces r => r = countAllPieces w
  | ClientCanRequestPiece p r => r = clientCanRequestPiece w p
  | CountMissingBlocks p r => r = countMissingBlocks w p
  | Priority p r => r = priority w p
  | BlockSpan p r => r = blockSpan w p
  | ClientCanRequestBlock b r => r = clientCanRequestBlock w b
  | CountActiveRequests b r => r = countActiveRequests w b
  | GetPeersForActiveRequests b r => r = getPeersForActiveRequests w b
  | IsSequentialDownload r => r = isSequentialDownload w
  | SequentialDownloadFromPiece r => r = sequentialDownloadFromPiece w
  | IsEndgame r => r = isEndgame w
  | CancelRequestForBlock _ _ => False
  end.

(** [logs w tr w']: read from the state [w], the calls [tr] lead to [w'];
    every query holds the mediator's answer in the state it was made in,
    and only the cancellations change the state. *)
Inductive logs : World -> list (Event Peer) -> World -> Prop :=
| logs_done w : logs w [] w
| logs_query w e tr w' :
    answered_in w e -> logs w tr w' -> logs w (e :: tr) w'
| logs_cancel w peer block tr w' :
    logs (tr_cancelRequestForBlock peer block w) tr w' ->
    logs w (CancelRequestForBlock peer block :: tr) w'.

(** The states that cancellations lead to. *)
Inductive reachable (w : World) : World -> Prop :=
| reachable_here : reachable w w
| reachable_cancel w' peer block :
    reachable w w' ->
    reachable w (tr_cancelRequestForBlock peer block w').

(** A computation whose calls are a faithful log of each of its runs. *)
Definition faithful {A : Type} (m : M World Peer A) : Prop :=
  forall w, logs w (calls (m w)) (final (m w)).

End Notions.

(** ** Further notions *)

(** Two candidates neither of which is less than the other. *)
Definition equivalent (a b : Candidate.t) : Prop :=
  Candidate.less a b = false /\ Candidate.less b a = false.

(** The spans lie in the range of [tr_block_index_t]. *)
Definition spans_within (spans : list tr_block_span_t) : Prop :=
  Forall (fun s => 0 <= span_begin s /\ span_end s <= Int.UINT32_MAX) spans.

Section FurtherNotions.

Context {World Peer : Type}.
Context {mediator_ : Mediator World Peer} {runtime_ : Runtime World Peer}.

(** The block [b] passes the two tests of the block walk in the state [w]:
    it can be requested, and its active requests are below the limit. *)
Definition eligible (w : World) (b : Z) : bool :=
  clientCanRequestBlock w b
  && (countActiveRequests w b <? (if isEndgame w then 2 else 1)).

(** The block [b] lies in the span of one of the candidates. *)
Definition in_span_of (w : World) (candidates : list Candidate.t) (b : Z)
  : Prop :=
  exists c,
    In c candidates
    /\ fst (blockSpan w (Candidate.piece c)) <= b
       < snd (blockSpan w (Candidate.piece c)).

(** Every cancellation in [tr] comes right after the query for the active
    requests of the same block, and names a peer of the answer. *)
Definition justified (tr : list (Event Peer)) : Prop :=
  forall pre P b post,
    tr = pre ++ CancelRequestForBlock P b :: post ->
    exists pre' peers when,
      pre = pre' ++ [GetPeersForActiveRequests b peers]
      /\ In (P, when) peers.

(** A call in which the mediator says that a block can be requested. *)
Definition is_offer (e : Event Peer) : bool :=
  match e with
  | ClientCanRequestBlock _ true => true
  | _ => false
  end.

(** The numbers of cancellations and of offered blocks in some calls. *)
Definition cancelled (tr : list (Event Peer)) : nat :=
  length (filter is_cancellation tr).

Definition offered (tr : list (Event Peer)) : nat :=
  length (filter is_offer tr).

(** The state that the cancellations of [tr], made in order, lead to. *)
Definition replay (tr : list (Event Peer)) (w : World) : World :=
  fold_left
    (fun w e =>
       match e with
       | CancelRequestForBlock P b => tr_cancelRequestForBlock P b w
       | _ => w
       end)
    tr w.


End FurtherNotions.

(** ** A mediator held in memory *)

Module Mock.

Record peer : Type := mkPeer { peer_id : Z; peer_speed : Z }.

Record piece_info : Type := mkPiece {
  can_request : bool;
  missing : Z;
  prio : Z;
  span : Z * Z
}.

(** A request in flight: the block, the peer asked and the time of asking. *)
Record request : Type := mkRequest {
  req_block : Z;
  req_peer : peer;
  req_when : Z
}.

Record world : Type := mkWorld {
  pieces : list piece_info;
  have_blocks : list Z;
  active : list request;
  sequential : bool;
  from_piece : Z;
  endgame : bool;
  now : Z
}.

Definition piece_at (w : world) (p : Z) : piece_info :=
  nth (Z.to_nat p) (pieces w) (mkPiece false 0 0 (0, 0)).

Definition requests_for (w : world) (b : Z) : list request :=
  filter (fun r => req_block r =? b) (active w).

Definition drop_request (p : peer) (b : Z) (w : world) : world :=
  mkWorld (pieces w) (have_blocks w)
    (filter (fun r => negb ((req_block r =? b)
                            && (peer_id (req_peer r) =? peer_id p)))
       (active w))
    (sequential w) (from_piece w) (endgame w) (now w).

(** Insertion sort for [operator<] of the candidates; sorting the whole
    range is one way to partial-sort it. *)
Fixpoint insert_sorted (c : Candidate.t) (l : list Candidate.t)
  : list Candidate.t :=
  match l with
  | [] => [c]
  | x :: rest =>
      if Candidate.less c x then c :: l else x :: insert_sorted c rest
  end.

Definition sort_all (l : list Candidate.t) : list Candidate.t :=
  fold_right insert_sorted [] l.

End Mock.

(** ** The scenarios of the specification *)

Module Scenario.

Definition piece (n_missing : Z) (span : Z * Z) : Mock.piece_info :=
  Mock.mkPiece true n_missing 0 span.

Definition new_peer : Mock.peer := Mock.mkPeer 1 10000.
Definition old_peer : Mock.peer := Mock.mkPeer 2 1000.

(** A: three pieces of four blocks, with 3, 1 and 2 blocks missing. *)
Definition A : Mock.world :=
  Mock.mkWorld [piece 3 (0, 4); piece 1 (4, 8); piece 2 (8, 12)]
    [] [] false 0 false 100.

(** B: endgame; block 0 has one active request, block 1 has two. *)
Definition B : Mock.world :=
  Mock.mkWorld [piece 3 (0, 3)] []
    [Mock.mkRequest 0 old_peer 90; Mock.mkRequest 1 old_peer 90;
     Mock.mkRequest 1 (Mock.mkPeer 3 1000) 90]
    false 0 true 100.

(** C: five wanted pieces, sequential download from piece 2. *)
Definition C : Mock.world :=
  Mock.mkWorld
    [piece 1 (0, 1); piece 1 (1, 2); piece 1 (2, 3); piece 1 (3, 4);
     piece 1 (4, 5)]
    [] [] true 2 false 100.

(** D and E: sequential download; block 10 was requested one second ago
    from a peer that delivers 1000 bytes per second. *)
Definition D : Mock.world :=
  Mock.mkWorld [piece 1 (10, 11)] [] [Mock.mkRequest 10 old_peer 99]
    true 0 false 100.

(** Two pieces whose spans overlap in the blocks 2 and 3. *)
Definition overlapping : Mock.world :=
  Mock.mkWorld [piece 1 (0, 4); piece 2 (2, 6)] [] [] false 0 false 100.

(** Five pieces of which piece 0 is complete, sequential download from
    piece 2. *)
Definition seek : Mock.world :=
  Mock.mkWorld
    [Mock.mkPiece false 0 0 (0, 1); piece 1 (1, 2); piece 1 (2, 3);
     piece 1 (3, 4); piece 1 (4, 5)]
    [] [] true 2 false 100.

(** Sequential download of two pieces, the second nearer to completion. *)
Definition unsorted : Mock.world :=
  Mock.mkWorld [piece 3 (0, 4); piece 1 (4, 8)] [] [] true 0 false 100.

(** A request for block 10 issued 524287 seconds ago to a peer that
    delivers 2^28 bytes per second; the new peer delivers half of that. *)
Definition fast_old_peer : Mock.peer := Mock.mkPeer 2 (2 ^ 28).
Definition slow_new_peer : Mock.peer := Mock.mkPeer 1 (2 ^ 27).
Definition stale : Mock.world :=
  Mock.mkWorld [piece 1 (10, 11)] []
    [Mock.mkRequest 10 fast_old_peer 1700000000]
    true 0 false 1700524287.

End Scenario.

(** ** Further scenarios *)

Module Further.

(** A transfer whose only piece has no block missing. *)
Definition complete : Mock.world :=
  Mock.mkWorld [Mock.mkPiece true 0 0 (0, 4)] [] [] false 0 false 100.

End Further.

(** * Properties *)

(** ** Machine integers *)

Lemma u32_small x : 0 <= x < Int.u32_mod -> Int.u32 x = x.
Proof. intros H. unfold Int.u32. now apply Z.mod_small. Qed.

Lemma u64_small x : 0 <= x < Int.u64_mod -> Int.u64 x = x.
Proof. intros H. unfold Int.u64. now apply Z.mod_small. Qed.

Lemma to_int_small x : - 2 ^ 31 <= x < 2 ^ 31 -> Int.to_int x = x.
Proof.
  intros H. unfold Int.to_int, Int.u32_mod.
  destruct (Z_lt_le_dec x 0) as [Hneg | Hpos].
  - replace (x mod 2 ^ 32) with (x + 2 ^ 32).
    + destruct (Z.ltb_spec (x + 2 ^ 32) (2 ^ 31)); lia.
    + apply Z.mod_unique with (q := -1); lia.
  - rewrite Z.mod_small by lia.
    destruct (Z.ltb_spec x (2 ^ 31)); lia.
Qed.

Lemma u64_range x : 0 <= Int.u64 x < Int.u64_mod.
Proof. unfold Int.u64, Int.u64_mod. apply Z.mod_pos_bound. lia. Qed.

(** ** Ranges *)

Lemma range_nil lo hi : hi <= lo -> range lo hi = [].
Proof.
  intros H. unfold range.
  replace (Z.to_nat (hi - lo)) with 0%nat by lia. reflexivity.
Qed.

Lemma range_cons lo hi : lo < hi -> range lo hi = lo :: range (lo + 1) hi.
Proof.
  intros H. unfold range.
  replace (Z.to_nat (hi - lo)) with (S (Z.to_nat (hi - (lo + 1)))) by lia.
  cbn [seq map]. f_equal; [lia |].
  rewrite <- seq_shift, map_map.
  apply map_ext. intros i. lia.
Qed.

Lemma range_snoc lo hi : lo <= hi -> range lo (hi + 1) = range lo hi ++ [hi].
Proof.
  intros H. unfold range.
  replace (Z.to_nat (hi + 1 - lo)) with (Z.to_nat (hi - lo) + 1)%nat by lia.
  rewrite seq_app, map_app. cbn [seq map]. do 2 f_equal. lia.
Qed.

Lemma in_range lo hi b : In b (range lo hi) <-> lo <= b < hi.
Proof.
  unfold range. rewrite in_map_iff. split.
  - intros (i & <- & Hi). apply in_seq in Hi. lia.
  - intros H. exists (Z.to_nat (b - lo)). split; [lia |].
    apply in_seq. lia.
Qed.

(** ** Candidate order *)

(** [compare] answers [-1], [0] or [1] as the least-first order stated in
    words has it. *)
Lemma compare_spec a b :
  (Candidate.compare a b = -1 /\ Candidate.precedes a b)
  \/ (Candidate.compare a b = 0 /\ same_keys a b)
  \/ (Candidate.compare a b = 1 /\ Candidate.precedes b a).
Proof.
  unfold Candidate.compare, Candidate.precedes, same_keys.
  destruct (Z.eqb_spec (Candidate.n_blocks_missing a)
              (Candidate.n_blocks_missing b)) as [Hn | Hn]; cbn [negb].
  - destruct (Z.eqb_spec (Candidate.priority a) (Candidate.priority b))
      as [Hp | Hp]; cbn [negb].
    + destruct (Z.eqb_spec (Candidate.salt a) (Candidate.salt b))
        as [Hs | Hs]; cbn [negb].
      * right; left. auto.
      * destruct (Z.ltb_spec (Candidate.salt a) (Candidate.salt b));
          [left | right; right]; split; try reflexivity; lia.
    + destruct (Z.ltb_spec (Candidate.priority b) (Candidate.priority a));
        [left | right; right]; split; try reflexivity; lia.
  - destruct (Z.ltb_spec (Candidate.n_blocks_missing a)
                (Candidate.n_blocks_missing b));
      [left | right; right]; split; try reflexivity; lia.
Qed.

(** [operator<] is that order. *)
Lemma less_precedes a b :
  Candidate.less a b = true <-> Candidate.precedes a b.
Proof.
  unfold Candidate.less.
  destruct (compare_spec a b) as [[-> H] | [[-> H] | [-> H]]]; cbn;
    unfold Candidate.precedes, same_keys in *;
    (split;
     [intros; try discriminate; try assumption
     | intros; try reflexivity; lia]).
Qed.

Lemma less_irrefl a : Candidate.less a a = false.
Proof.
  unfold Candidate.less, Candidate.compare.
  rewrite !Z.eqb_refl. reflexivity.
Qed.

Lemma less_asym a b : Candidate.less a b = true -> Candidate.less b a = false.
Proof.
  intros H. apply less_precedes in H.
  destruct (Candidate.less b a) eqn:E; [| reflexivity].
  apply less_precedes in E. unfold Candidate.precedes in *. lia.
Qed.

Lemma less_trans a b c :
  Candidate.less a b = true -> Candidate.less b c = true ->
  Candidate.less a c = true.
Proof.
  rewrite !less_precedes. unfold Candidate.precedes. lia.
Qed.

(** Not being less is transitive as well: the order is a strict weak one. *)
Lemma not_less_trans a b c :
  Candidate.less b a = false -> Candidate.less c b = false ->
  Candidate.less c a = false.
Proof.
  intros Hab Hbc.
  destruct (Candidate.less c a) eqn:E; [| reflexivity].
  apply less_precedes in E.
  assert (Hnab : ~ Candidate.precedes b a)
    by (rewrite <- less_precedes; congruence).
  assert (Hnbc : ~ Candidate.precedes c b)
    by (rewrite <- less_precedes; congruence).
  unfold Candidate.precedes in *. lia.
Qed.

(** ** Sorted lists *)

Section SortedFacts.

Context {A : Type} (R : A -> A -> Prop).

Lemma StronglySorted_app_inv (l1 l2 : list A) :
  StronglySorted R (l1 ++ l2) ->
  StronglySorted R l1 /\ StronglySorted R l2
  /\ (forall a b, In a l1 -> In b l2 -> R a b).
Proof.
  induction l1 as [| x l1 IH]; cbn; intros H.
  - repeat split; [constructor | assumption | intros ? ? []].
  - inversion H as [| ? ? Hs Hall]; subst.
    destruct (IH Hs) as (H1 & H2 & H12).
    rewrite Forall_forall in Hall.
    repeat split; try assumption.
    + constructor; [assumption |]. apply Forall_forall.
      intros y Hy. apply Hall, in_or_app. now left.
    + intros a b [-> | Ha] Hb.
      * apply Hall, in_or_app. now right.
      * now apply H12.
Qed.

End SortedFacts.

(** ** The span packer *)

Lemma expand_app s1 s2 : expand (s1 ++ s2) = expand s1 ++ expand s2.
Proof. unfold expand. apply flat_map_app. Qed.

Lemma span_total_app s1 s2 :
  span_total (s1 ++ s2) = span_total s1 + span_total s2.
Proof.
  unfold span_total. induction s1 as [| s s1 IH]; cbn; [reflexivity |].
  fold (span_total (s1 ++ s2)) in *. fold (span_total s1) in *.
  unfold span_total in *. rewrite IH. lia.
Qed.

Lemma makeSpans_loop_acc blocks : forall cur spans,
  makeSpans_loop blocks cur spans = spans ++ makeSpans_loop blocks cur [].
Proof.
  induction blocks as [| b rest IH]; intros cur spans; cbn.
  - reflexivity.
  - destruct (span_end cur =? b).
    + apply IH.
    + rewrite IH. rewrite (IH _ [cur]). now rewrite <- app_assoc.
Qed.

Lemma single_exact b :
  0 <= b < Int.UINT32_MAX -> single b = mkSpan b (b + 1).
Proof.
  intros H. unfold single. rewrite u32_small; [reflexivity |].
  unfold Int.UINT32_MAX in H. lia.
Qed.

Lemma ascending_tail_above b rest :
  ascending (b :: rest) -> Forall (fun x => b + 1 <= x) rest.
Proof.
  intros H. inversion H as [| ? ? _ Hall]; subst.
  eapply Forall_impl; [| exact Hall]. cbn. intros; lia.
Qed.

(** What the loop leaves when it is entered with the span [cur] and the
    blocks still to come lie at or above the end of [cur]. *)
Lemma makeSpans_loop_spec blocks : forall cur,
  0 <= span_begin cur < span_end cur ->
  span_end cur <= Int.UINT32_MAX ->
  ascending blocks ->
  Forall (fun b => span_end cur <= b < Int.UINT32_MAX) blocks ->
  let out := makeSpans_loop blocks cur [] in
  expand out = range (span_begin cur) (span_end cur) ++ blocks
  /\ span_total out
     = span_end cur - span_begin cur + Z.of_nat (length blocks)
  /\ spans_nonempty out
  /\ spans_separated out
  /\ Forall (fun s => span_begin cur <= span_begin s) out.
Proof.
  induction blocks as [| b rest IH]; intros cur Hcur Hmax Hasc Hall; cbn zeta.
  - cbn [makeSpans_loop app]. unfold expand, spans_nonempty, spans_separated.
    cbn [flat_map span_total fold_right length].
    split; [now rewrite !app_nil_r |].
    split; [lia |].
    split; [constructor; [lia | constructor] |].
    split; [repeat constructor |].
    constructor; [lia | constructor].
  - cbn [makeSpans_loop].
    inversion Hall as [| ? ? Hb Hrest]; subst.
    pose proof (ascending_tail_above _ _ Hasc) as Habove.
    assert (Hasc' : ascending rest) by (inversion Hasc; assumption).
    destruct (Z.eqb_spec (span_end cur) b) as [Heq | Hne].
    + (* the block extends the current span *)
      rewrite u32_small by (unfold Int.UINT32_MAX in *; lia).
      specialize (IH (mkSpan (span_begin cur) (span_end cur + 1))).
      cbn [span_begin span_end] in IH.
      destruct IH as (He & Ht & Hn & Hs & Hf); try lia; try assumption.
      { rewrite Forall_forall in *. intros x Hx.
        specialize (Habove x Hx). specialize (Hrest x Hx). lia. }
      repeat split; try assumption.
      * rewrite He, range_snoc by lia. rewrite <- app_assoc. cbn.
        now subst b.
      * rewrite Ht. cbn [length]. lia.
    + (* the block opens a new span *)
      rewrite makeSpans_loop_acc, single_exact by lia.
      specialize (IH (mkSpan b (b + 1))).
      cbn [span_begin span_end] in IH.
      destruct IH as (He & Ht & Hn & Hs & Hf); try lia; try assumption.
      { rewrite Forall_forall in *. intros x Hx.
        specialize (Habove x Hx). specialize (Hrest x Hx). lia. }
      cbn [app]. repeat split.
      * change (cur :: ?l) with ([cur] ++ l). rewrite expand_app, He.
        unfold expand at 1. cbn [flat_map]. rewrite app_nil_r.
        unfold expand_span at 1. f_equal.
        rewrite range_cons, range_nil by lia. reflexivity.
      * change (cur :: ?l) with ([cur] ++ l). rewrite span_total_app, Ht.
        cbn [span_total fold_right length]. lia.
      * constructor; [lia | assumption].
      * constructor; [assumption |].
        eapply Forall_impl; [| exact Hf]. cbn. intros s Hsb. lia.
      * constructor; [lia |].
        eapply Forall_impl; [| exact Hf]. cbn. intros s Hsb. lia.
Qed.

(** The packer on blocks that are block indices: what it returns expands to
    its input, covers as many blocks as it was given and is a list of
    separated spans. *)
Lemma makeSpans_spec blocks :
  ascending blocks ->
  Forall (fun b => 0 <= b < Int.UINT32_MAX) blocks ->
  expand (makeSpans blocks) = blocks
  /\ span_total (makeSpans blocks) = Z.of_nat (length blocks)
  /\ spans_nonempty (makeSpans blocks)
  /\ spans_separated (makeSpans blocks).
Proof.
  intros Hasc Hall. destruct blocks as [| b0 rest].
  - cbn. repeat split; constructor.
  - cbn [makeSpans].
    inversion Hall as [| ? ? Hb Hrest]; subst.
    pose proof (ascending_tail_above _ _ Hasc) as Habove.
    rewrite single_exact by assumption.
    destruct (makeSpans_loop_spec rest (mkSpan b0 (b0 + 1)))
      as (He & Ht & Hn & Hs & _); cbn [span_begin span_end]; try lia.
    + inversion Hasc; assumption.
    + rewrite Forall_forall in *. intros x Hx.
      specialize (Habove x Hx). specialize (Hrest x Hx). lia.
    + repeat split; try assumption.
      * rewrite He. cbn [span_begin span_end].
        rewrite range_cons, range_nil by lia. reflexivity.
      * rewrite Ht. cbn [span_begin span_end length]. lia.
Qed.

Lemma separated_ascending spans :
  spans_nonempty spans -> spans_separated spans -> spans_ascending spans.
Proof.
  unfold spans_nonempty, spans_separated, spans_ascending.
  induction spans as [| s spans IH]; intros Hn Hs; [constructor |].
  inversion Hn as [| ? ? Hs1 Hn']; subst.
  inversion Hs as [| ? ? Hs' Hall]; subst.
  constructor; [auto |].
  eapply Forall_impl; [| exact Hall]. cbn. intros; lia.
Qed.

(** ** The block set *)

Lemma insert_in b s x : In x (BlockSet.insert b s) <-> x = b \/ In x s.
Proof.
  induction s as [| y s IH]; cbn.
  - intuition.
  - destruct (Z.ltb_spec b y); [cbn; intuition |].
    destruct (Z.eqb_spec b y); cbn; [subst; intuition |].
    rewrite IH. intuition.
Qed.

Lemma insert_ascending b s : ascending s -> ascending (BlockSet.insert b s).
Proof.
  unfold ascending. induction s as [| y s IH]; cbn; intros Hs.
  - repeat constructor.
  - inversion Hs as [| ? ? Hs' Hall]; subst.
    destruct (Z.ltb_spec b y).
    + constructor; [assumption |]. constructor; [assumption |].
      eapply Forall_impl; [| exact Hall]. cbn. intros; lia.
    + destruct (Z.eqb_spec b y); [assumption |].
      constructor; [auto |].
      rewrite Forall_forall in *. intros x Hx.
      apply insert_in in Hx. destruct Hx as [-> | Hx]; [lia | auto].
Qed.

(** Inserting a block the set holds leaves the set as it is. *)
Lemma insert_present b s : ascending s -> In b s -> BlockSet.insert b s = s.
Proof.
  unfold ascending. induction s as [| y s IH]; cbn; intros Hs Hin; [easy |].
  inversion Hs as [| ? ? Hs' Hall]; subst.
  rewrite Forall_forall in Hall.
  destruct (Z.ltb_spec b y) as [Hlt | Hge].
  - destruct Hin as [-> | Hin]; [lia |]. specialize (Hall b Hin). lia.
  - destruct (Z.eqb_spec b y); [reflexivity |].
    destruct Hin as [-> | Hin]; [congruence |]. now rewrite IH.
Qed.

Lemma insert_size b s :
  BlockSet.size (BlockSet.insert b s) <= BlockSet.size s + 1.
Proof.
  unfold BlockSet.size. induction s as [| y s IH]; cbn [BlockSet.insert].
  - cbn. lia.
  - destruct (b <? y); [cbn [length]; lia |].
    destruct (b =? y); cbn [length]; lia.
Qed.

Lemma ascending_NoDup s : ascending s -> NoDup s.
Proof.
  unfold ascending. induction s as [| y s IH]; intros Hs; constructor.
  - inversion Hs as [| ? ? _ Hall]; subst. rewrite Forall_forall in Hall.
    intros Hin. specialize (Hall y Hin). lia.
  - inversion Hs; auto.
Qed.

(** ** Runs of computations *)

Section Runs.

Context {World Peer : Type}.
Context {mediator_ : Mediator World Peer} {runtime_ : Runtime World Peer}.

Lemma run_bind {A B} (m : M World Peer A) (k : A -> M World Peer B)
    (w : World) :
  bind m k w =
  (result (k (result (m w)) (final (m w))),
   final (k (result (m w)) (final (m w))),
   calls (m w) ++ calls (k (result (m w)) (final (m w)))).
Proof.
  unfold bind, result, final, calls.
  destruct (m w) as [[a w1] t1]. cbn.
  destruct (k a w1) as [[b w2] t2]. reflexivity.
Qed.

Lemma run_ask_bind {A B} (q : World -> A) ev (k : A -> M World Peer B)
    (w : World) :
  bind (ask q ev) k w =
  (result (k (q w) w), final (k (q w) w), ev (q w) :: calls (k (q w) w)).
Proof. rewrite run_bind. reflexivity. Qed.

Lemma run_observe_bind {A B} (q : World -> A) (k : A -> M World Peer B)
    (w : World) :
  bind (observe q) k w = k (q w) w.
Proof.
  rewrite run_bind. cbn. unfold result, final, calls.
  now destruct (k (q w) w) as [[b w2] t2].
Qed.

(** *** The equations of the loops *)

Lemma walk_blocks_full n_wanted is_sequential peer block rest blocks
    (w : World) :
  n_wanted <= BlockSet.size blocks ->
  walk_blocks n_wanted is_sequential peer (block :: rest) blocks w
  = (blocks, w, []).
Proof.
  intros H. cbn [walk_blocks].
  destruct (Z.ltb_spec (BlockSet.size blocks) n_wanted); [lia |].
  reflexivity.
Qed.

Lemma walk_blocks_skip n_wanted is_sequential peer block rest blocks
    (w : World) :
  BlockSet.size blocks < n_wanted ->
  clientCanRequestBlock w block = false ->
  walk_blocks n_wanted is_sequential peer (block :: rest) blocks w
  = let r := walk_blocks n_wanted is_sequential peer rest blocks w in
    (result r, final r, ClientCanRequestBlock block false :: calls r).
Proof.
  intros Hsize Hcan. cbn [walk_blocks].
  destruct (Z.ltb_spec (BlockSet.size blocks) n_wanted); [| lia].
  cbn [negb]. rewrite run_ask_bind, Hcan. reflexivity.
Qed.

Lemma walk_blocks_visit n_wanted is_sequential peer block rest blocks
    (w : World) :
  BlockSet.size blocks < n_wanted ->
  clientCanRequestBlock w block = true ->
  walk_blocks n_wanted is_sequential peer (block :: rest) blocks w
  = let p := preempt is_sequential block peer w in
    let w1 := final p in
    let r := walk_blocks n_wanted is_sequential peer rest
               (after_check w1 block blocks) w1 in
    (result r, final r,
     ClientCanRequestBlock block true
       :: calls p
       ++ CountActiveRequests block (countActiveRequests w1 block)
       :: IsEndgame (isEndgame w1) :: calls r).
Proof.
  intros Hsize Hcan. cbn [walk_blocks].
  destruct (Z.ltb_spec (BlockSet.size blocks) n_wanted); [| lia].
  cbn [negb]. rewrite run_ask_bind, Hcan. cbn [negb].
  rewrite run_bind. cbn zeta.
  set (p := preempt is_sequential block peer w).
  rewrite !run_ask_bind. unfold after_check.
  destruct ((if isEndgame (final p) then 2 else 1)
            <=? countActiveRequests (final p) block); reflexivity.
Qed.

Lemma walk_candidates_full n_wanted is_sequential peer c rest blocks
    (w : World) :
  n_wanted <= BlockSet.size blocks ->
  walk_candidates n_wanted is_sequential peer (c :: rest) blocks w
  = (blocks, w, []).
Proof.
  intros H. cbn [walk_candidates].
  destruct (Z.leb_spec n_wanted (BlockSet.size blocks)); [| lia].
  reflexivity.
Qed.

Lemma walk_candidates_visit n_wanted is_sequential peer c rest blocks
    (w : World) :
  BlockSet.size blocks < n_wanted ->
  walk_candidates n_wanted is_sequential peer (c :: rest) blocks w
  = let span := blockSpan w (Candidate.piece c) in
    let b := walk_blocks n_wanted is_sequential peer
               (range (fst span) (snd span)) blocks w in
    let r := walk_candidates n_wanted is_sequential peer rest
               (result b) (final b) in
    (result r, final r,
     BlockSpan (Candidate.piece c) span :: calls b ++ calls r).
Proof.
  intros H. cbn [walk_candidates].
  destruct (Z.leb_spec n_wanted (BlockSet.size blocks)); [lia |].
  rewrite run_ask_bind, !run_bind. reflexivity.
Qed.

End Runs.

(** ** Slow-request preemption *)

Section Preemption.

Context {World Peer : Type}.
Context {mediator_ : Mediator World Peer} {runtime_ : Runtime World Peer}.

Lemma cancelSlowRequest_loop_find block now v_new peers (w : World) :
  cancelSlowRequest_loop block now v_new peers w
  = match find (slower_than w now v_new) peers with
    | Some (current_peer, _) =>
        (tt, tr_cancelRequestForBlock current_peer block w,
         [CancelRequestForBlock current_peer block])
    | None => (tt, w, [])
    end.
Proof.
  induction peers as [| [current_peer when] rest IH];
    cbn [cancelSlowRequest_loop find]; [reflexivity |].
  rewrite run_observe_bind. unfold slower_than at 1. cbn [fst snd].
  destruct (get_piece_speed_bytes_per_second w current_peer now =? 0);
    cbn [negb andb]; [exact IH |].
  destruct (is_slow _); [reflexivity | exact IH].
Qed.

Lemma cancelSlowRequest_run block peer (w : World) :
  cancelSlowRequest block peer w
  = match victim w block peer with
    | Some (current_peer, _) =>
        (tt, tr_cancelRequestForBlock current_peer block w,
         [GetPeersForActiveRequests block (getPeersForActiveRequests w block);
          CancelRequestForBlock current_peer block])
    | None =>
        (tt, w,
         [GetPeersForActiveRequests block (getPeersForActiveRequests w block)])
    end.
Proof.
  unfold cancelSlowRequest, victim.
  rewrite run_observe_bind, run_ask_bind, run_observe_bind.
  destruct (get_piece_speed_bytes_per_second w peer (tr_time w) =? 0);
    [reflexivity |].
  rewrite cancelSlowRequest_loop_find.
  destruct (find _ _) as [[current_peer when] |]; reflexivity.
Qed.

Lemma cancelSlowRequest_calls block peer (w : World) :
  calls (cancelSlowRequest block peer w)
  = GetPeersForActiveRequests block (getPeersForActiveRequests w block)
      :: cancellations w block peer.
Proof.
  rewrite cancelSlowRequest_run. unfold cancellations.
  destruct (victim w block peer) as [[current_peer when] |]; reflexivity.
Qed.

(** [res > 1.5] holds exactly when [res >= 2]. *)
Lemma is_slow_ge_2 res : is_slow res = true <-> 2 <= res.
Proof. unfold is_slow. rewrite Z.ltb_lt. lia. Qed.

(** While nothing wraps, the score is the formula of the specification. *)
Lemma slow_score_exact v_new v_cur now when :
  0 <= v_new -> 0 < v_cur -> 0 <= now - when < Int.u64_mod ->
  (now - when) * v_new < Int.u64_mod ->
  v_new / v_cur < 2 ^ 31 ->
  (now - when) * v_new / BlockSize <= 2 ^ 31 ->
  slow_score v_new v_cur now when
  = v_new / v_cur - (now - when) * v_new / BlockSize.
Proof.
  intros Hnew Hcur Hdt Hprod Hq Hd. unfold slow_score.
  assert (Hq0 : 0 <= v_new / v_cur) by (apply Z.div_pos; lia).
  assert (Hd0 : 0 <= (now - when) * v_new / BlockSize)
    by (apply Z.div_pos; [apply Z.mul_nonneg_nonneg; lia | reflexivity]).
  rewrite (u64_small (now - when)) by lia.
  rewrite (u64_small ((now - when) * v_new))
    by (split; [apply Z.mul_nonneg_nonneg; lia | assumption]).
  set (q := v_new / v_cur) in *.
  set (d := (now - when) * v_new / BlockSize) in *.
  rewrite <- (to_int_small (q - d)) at 2 by lia.
  unfold Int.to_int, Int.u64, Int.u64_mod, Int.u32_mod.
  replace ((q - d) mod 2 ^ 64 mod 2 ^ 32) with ((q - d) mod 2 ^ 32);
    [reflexivity |].
  change (2 ^ 64) with (2 ^ 32 * 2 ^ 32).
  rewrite Z.rem_mul_r by lia.
  rewrite Z.mul_comm, Z.mod_add by lia. now rewrite Z.mod_mod by lia.
Qed.

End Preemption.

(** ** Candidate enumeration *)

Section Enumeration.

Context {World Peer : Type}.
Context {mediator_ : Mediator World Peer} {runtime_ : Runtime World Peer}.

Lemma wanted_loop_run pieces : forall acc (w : World),
  wanted_loop pieces acc w
  = (acc ++ wanted_of w pieces, w, wanted_calls w pieces).
Proof.
  unfold wanted_of, wanted.
  induction pieces as [| i rest IH]; intros acc w; cbn [wanted_loop].
  - cbn. now rewrite app_nil_r.
  - rewrite run_ask_bind. cbn [filter wanted_calls flat_map].
    destruct (clientCanRequestPiece w i); cbn [negb andb].
    + rewrite run_ask_bind.
      destruct (countMissingBlocks w i =? 0); cbn [negb];
        rewrite IH; cbn [result final calls fst snd app map];
        [reflexivity |].
      now rewrite <- app_assoc.
    + rewrite IH. reflexivity.
Qed.

Lemma candidates_loop_run is_sequential W : forall draws acc (w : World),
  candidates_loop is_sequential W draws acc w
  = (acc ++ candidates_of w is_sequential draws W, w,
     map (fun pm => Priority (fst pm) (priority w (fst pm))) W).
Proof.
  induction W as [| [piece n_missing] rest IH]; intros draws acc w;
    cbn [candidates_loop candidates_of map].
  - cbn. now rewrite app_nil_r.
  - rewrite run_ask_bind, IH. cbn [result final calls fst snd].
    now rewrite <- app_assoc.
Qed.

(** [getCandidates] leaves the transfer as it found it and returns the
    candidates of the wanted pieces, rotated when the rotation applies. *)
Lemma getCandidates_run (w : World) :
  getCandidates w
  = (candidates_of w (isSequentialDownload w) 0 (wanted_pieces_of w), w,
     getCandidates_calls w).
Proof.
  unfold getCandidates, getCandidates_calls, wanted_pieces_of.
  rewrite run_ask_bind, run_bind, wanted_loop_run.
  cbn [result final calls fst snd app].
  rewrite !run_ask_bind, candidates_loop_run.
  reflexivity.
Qed.

Lemma candidates_of_pieces (w : World) is_sequential W : forall draws,
  map Candidate.piece (candidates_of w is_sequential draws W) = map fst W.
Proof.
  induction W as [| [piece n_missing] rest IH]; intros draws; cbn;
    [reflexivity |].
  now rewrite IH.
Qed.

Lemma candidates_of_in (w : World) is_sequential W : forall draws c,
  In c (candidates_of w is_sequential draws W) ->
  In (Candidate.piece c, Candidate.n_blocks_missing c) W.
Proof.
  induction W as [| [piece n_missing] rest IH]; intros draws c; cbn;
    [easy |].
  intros [<- | Hin]; [now left | right; eauto].
Qed.

Lemma rotate_in {A} k (l : list A) x : In x (rotate k l) <-> In x l.
Proof.
  unfold rotate. rewrite in_app_iff.
  rewrite <- (firstn_skipn k l) at 3. rewrite in_app_iff. tauto.
Qed.

Lemma rotate_wanted_in is_sequential origin W x :
  In x (rotate_wanted is_sequential origin W) <-> In x W.
Proof.
  unfold rotate_wanted. destruct (_ && _); [apply rotate_in | tauto].
Qed.

(** Every candidate stands for a piece of the transfer that can be
    requested and has blocks missing, with that count of missing blocks. *)
Lemma getCandidates_wanted (w : World) c :
  In c (result (getCandidates w)) ->
  0 <= Candidate.piece c < countAllPieces w
  /\ clientCanRequestPiece w (Candidate.piece c) = true
  /\ Candidate.n_blocks_missing c = countMissingBlocks w (Candidate.piece c)
  /\ 0 < countMissingBlocks w (Candidate.piece c).
Proof.
  rewrite getCandidates_run. cbn [result fst].
  intros Hin. apply candidates_of_in in Hin.
  unfold wanted_pieces_of in Hin. apply rotate_wanted_in in Hin.
  unfold wanted_of in Hin. apply in_map_iff in Hin.
  destruct Hin as (i & Heq & Hi). apply filter_In in Hi.
  destruct Hi as [Hrange Hw]. apply in_range in Hrange.
  injection Heq as Hp Hm. rewrite <- Hp, <- Hm.
  unfold wanted in Hw. apply andb_true_iff in Hw. destruct Hw as [Hcan Hnz].
  apply negb_true_iff, Z.eqb_neq in Hnz.
  pose proof (countMissingBlocks_range w i).
  repeat split; try assumption; lia.
Qed.

End Enumeration.

(** ** The block mining loop *)

Section Mining.

Context {World Peer : Type}.
Context {mediator_ : Mediator World Peer} {runtime_ : Runtime World Peer}.

Lemma pick_blocks_run n_wanted peer (w : World) :
  pick_blocks n_wanted peer w
  = let r := walk_candidates n_wanted (isSequentialDownload w) peer
               (visited w) BlockSet.empty w in
    (result r, final r,
     calls (getCandidates w)
       ++ IsSequentialDownload (isSequentialDownload w) :: calls r).
Proof.
  unfold pick_blocks, visited.
  rewrite run_bind, getCandidates_run. cbn [result final calls fst snd].
  rewrite run_ask_bind. reflexivity.
Qed.

Lemma next_run n_wanted peer (w : World) :
  n_wanted <> 0 ->
  next n_wanted peer w
  = let r := pick_blocks n_wanted peer w in
    (makeSpans (result r), final r, calls r).
Proof.
  intros Hn. unfold next.
  destruct (Z.eqb_spec n_wanted 0); [contradiction |].
  rewrite run_bind. cbn [ret result final calls fst snd].
  now rewrite app_nil_r.
Qed.

(** *** Invariants of the picked set *)

Section Invariant.

Variable n_wanted : Z.
Variable P : BlockSet.t -> Prop.
Variable Q : Z -> Prop.

Hypothesis insert_keeps : forall b s,
  Q b -> P s -> BlockSet.size s < n_wanted -> P (BlockSet.insert b s).

Lemma walk_blocks_invariant is_sequential peer todo :
  forall blocks (w : World),
  Forall Q todo -> P blocks ->
  P (result (walk_blocks n_wanted is_sequential peer todo blocks w)).
Proof.
  induction todo as [| block rest IH]; intros blocks w Hall HP.
  - exact HP.
  - inversion Hall as [| ? ? Hq Hrest]; subst.
    destruct (Z_lt_le_dec (BlockSet.size blocks) n_wanted) as [Hroom | Hfull].
    + destruct (clientCanRequestBlock w block) eqn:Hcan.
      * rewrite walk_blocks_visit by assumption. cbn zeta.
        cbn [result fst]. apply IH; [assumption |].
        unfold after_check. destruct (_ <=? _); auto.
      * rewrite walk_blocks_skip by assumption. cbn zeta.
        cbn [result fst]. now apply IH.
    + rewrite walk_blocks_full by assumption. exact HP.
Qed.

Hypothesis block_indices : forall b, 0 <= b < Int.UINT32_MAX -> Q b.

Lemma walk_candidates_invariant is_sequential peer candidates :
  forall blocks (w : World),
  P blocks ->
  P (result (walk_candidates n_wanted is_sequential peer candidates blocks w)).
Proof.
  induction candidates as [| c rest IH]; intros blocks w HP.
  - exact HP.
  - destruct (Z_lt_le_dec (BlockSet.size blocks) n_wanted) as [Hroom | Hfull].
    + rewrite walk_candidates_visit by assumption. cbn zeta.
      cbn [result fst]. apply IH. apply walk_blocks_invariant; [| exact HP].
      apply Forall_forall. intros b Hb. apply in_range in Hb.
      pose proof (blockSpan_range w (Candidate.piece c)).
      apply block_indices. lia.
    + rewrite walk_candidates_full by assumption. exact HP.
Qed.

Lemma pick_blocks_invariant peer (w : World) :
  P BlockSet.empty -> P (result (pick_blocks n_wanted peer w)).
Proof.
  intros HP. rewrite pick_blocks_run. cbn zeta. cbn [result fst].
  now apply walk_candidates_invariant.
Qed.

End Invariant.

(** The picked blocks are strictly ascending. *)
Lemma pick_blocks_ascending n_wanted peer (w : World) :
  ascending (result (pick_blocks n_wanted peer w)).
Proof.
  apply pick_blocks_invariant with (Q := fun _ => True).
  - intros b s _ Hs _. now apply insert_ascending.
  - trivial.
  - constructor.
Qed.

(** The picked blocks are block indices: none is the largest value of the
    type, at which the packer would wrap. *)
Lemma pick_blocks_indices n_wanted peer (w : World) :
  Forall (fun b => 0 <= b < Int.UINT32_MAX)
    (result (pick_blocks n_wanted peer w)).
Proof.
  apply pick_blocks_invariant
    with (P := Forall (fun b => 0 <= b < Int.UINT32_MAX))
         (Q := fun b => 0 <= b < Int.UINT32_MAX).
  - intros b s Hb Hs _. apply Forall_forall. intros x Hx.
    apply insert_in in Hx. destruct Hx as [-> | Hx]; [assumption |].
    rewrite Forall_forall in Hs. auto.
  - trivial.
  - constructor.
Qed.

(** No more blocks are picked than were wanted. *)
Lemma pick_blocks_size n_wanted peer (w : World) :
  0 <= n_wanted ->
  BlockSet.size (result (pick_blocks n_wanted peer w)) <= n_wanted.
Proof.
  intros Hn.
  apply pick_blocks_invariant
    with (P := fun s => BlockSet.size s <= n_wanted) (Q := fun _ => True).
  - intros b s _ _ Hroom. pose proof (insert_size b s). lia.
  - trivial.
  - exact Hn.
Qed.

(** The spans [next] returns stand for the picked blocks. *)
Lemma next_expand n_wanted peer (w : World) :
  n_wanted <> 0 ->
  expand (result (next n_wanted peer w))
  = result (pick_blocks n_wanted peer w).
Proof.
  intros Hn. rewrite next_run by assumption. cbn zeta. cbn [result fst].
  apply makeSpans_spec.
  - apply pick_blocks_ascending.
  - apply pick_blocks_indices.
Qed.

End Mining.

(** ** What the mediator said of a picked block *)

Section Eligibility.

Context {World Peer : Type}.
Context {mediator_ : Mediator World Peer} {runtime_ : Runtime World Peer}.

Lemma under_limit_app_r t0 (tr : list (Event Peer)) b :
  under_limit tr b -> under_limit (t0 ++ tr) b.
Proof.
  intros (n & e & pre & post & -> & Hlt).
  exists n, e, (t0 ++ pre), post. split; [| assumption].
  now rewrite <- app_assoc.
Qed.

Lemma under_limit_app_l (tr : list (Event Peer)) t1 b :
  under_limit tr b -> under_limit (tr ++ t1) b.
Proof.
  intros (n & e & pre & post & -> & Hlt).
  exists n, e, pre, (post ++ t1). split; [| assumption].
  rewrite <- app_assoc. reflexivity.
Qed.

Lemma selected_app_r t0 (tr : list (Event Peer)) b :
  selected tr b -> selected (t0 ++ tr) b.
Proof.
  intros [Hin Hu]. split; [apply in_or_app; now right |].
  now apply under_limit_app_r.
Qed.

Lemma selected_cons e (tr : list (Event Peer)) b :
  selected tr b -> selected (e :: tr) b.
Proof. apply (selected_app_r [e]). Qed.

(** A block that the walk over a piece adds was selected during the walk. *)
Lemma walk_blocks_selected n_wanted is_sequential peer todo :
  forall blocks (w : World) b,
  In b (result (walk_blocks n_wanted is_sequential peer todo blocks w)) ->
  In b blocks
  \/ (In b todo
      /\ selected
           (calls (walk_blocks n_wanted is_sequential peer todo blocks w)) b).
Proof.
  induction todo as [| block rest IH]; intros blocks w b.
  - cbn. auto.
  - destruct (Z_lt_le_dec (BlockSet.size blocks) n_wanted) as [Hroom | Hfull].
    + destruct (clientCanRequestBlock w block) eqn:Hcan.
      * rewrite walk_blocks_visit by assumption. cbn zeta.
        set (p := preempt is_sequential block peer w).
        cbn [result calls fst snd]. intros Hin.
        apply IH in Hin. destruct Hin as [Hin | [Hin Hsel]].
        -- unfold after_check in Hin.
           destruct (Z.leb_spec (if isEndgame (final p) then 2 else 1)
                       (countActiveRequests (final p) block)) as [Hcap | Hcap];
             [now left |].
           apply insert_in in Hin. destruct Hin as [-> | Hin]; [| now left].
           right. split; [now left |]. split; [now left |].
           exists (countActiveRequests (final p) block), (isEndgame (final p)),
             (ClientCanRequestBlock block true :: calls p),
             (calls (walk_blocks n_wanted is_sequential peer rest
                       (after_check (final p) block blocks) (final p))).
           split; [reflexivity | exact Hcap].
        -- right. split; [now right |].
           apply selected_cons, selected_app_r.
           now apply (selected_app_r [_; _]).
      * rewrite walk_blocks_skip by assumption. cbn zeta.
        cbn [result calls fst snd]. intros Hin.
        apply IH in Hin. destruct Hin as [Hin | [Hin Hsel]]; [now left |].
        right. split; [now right | now apply selected_cons].
    + rewrite walk_blocks_full by assumption. cbn. auto.
Qed.

(** A block that the loop over the candidates adds lies in the span the
    mediator gave for one of them, and was selected. *)
Lemma walk_candidates_selected n_wanted is_sequential peer candidates :
  forall blocks (w : World) b,
  In b (result (walk_candidates n_wanted is_sequential peer candidates
                  blocks w)) ->
  In b blocks
  \/ exists c span,
       In c candidates
       /\ In (BlockSpan (Candidate.piece c) span)
            (calls (walk_candidates n_wanted is_sequential peer candidates
                      blocks w))
       /\ fst span <= b < snd span
       /\ selected
            (calls (walk_candidates n_wanted is_sequential peer candidates
                      blocks w)) b.
Proof.
  induction candidates as [| c rest IH]; intros blocks w b.
  - cbn. auto.
  - destruct (Z_lt_le_dec (BlockSet.size blocks) n_wanted) as [Hroom | Hfull].
    + rewrite walk_candidates_visit by assumption. cbn zeta.
      set (span := blockSpan w (Candidate.piece c)).
      set (wb := walk_blocks n_wanted is_sequential peer
                   (range (fst span) (snd span)) blocks w).
      cbn [result calls fst snd]. intros Hin.
      apply IH in Hin.
      destruct Hin as [Hin | (c' & span' & Hc & Hs & Hb & Hsel)].
      * apply walk_blocks_selected in Hin. fold wb in Hin.
        destruct Hin as [Hin | [Hin Hsel]]; [now left |].
        right. exists c, span. apply in_range in Hin.
        repeat split; try lia; [now left | now left | |].
        -- right. apply in_or_app. left. apply Hsel.
        -- apply under_limit_app_r with (t0 := [_]),
             under_limit_app_l, Hsel.
      * right. exists c', span'.
        repeat split; try lia; [now right | | |].
        -- right. apply in_or_app. now right.
        -- right. apply in_or_app. right. apply Hsel.
        -- apply under_limit_app_r with (t0 := [_]),
             under_limit_app_r, Hsel.
    + rewrite walk_candidates_full by assumption. cbn. auto.
Qed.

Lemma order_candidates_in is_sequential candidates c :
  In c (order_candidates (World := World) is_sequential candidates) ->
  In c candidates.
Proof.
  unfold order_candidates. destruct is_sequential; cbn [negb]; [trivial |].
  apply Permutation_in, Permutation_sym, partial_sort_perm.
  apply Nat.le_min_l.
Qed.

(** Every picked block was selected, in the span that the mediator gave
    for the piece of a candidate. *)
Lemma pick_blocks_eligible n_wanted peer (w : World) b :
  In b (result (pick_blocks n_wanted peer w)) ->
  selected (calls (pick_blocks n_wanted peer w)) b
  /\ exists c span,
       In c (result (getCandidates w))
       /\ In (BlockSpan (Candidate.piece c) span)
            (calls (pick_blocks n_wanted peer w))
       /\ fst span <= b < snd span.
Proof.
  rewrite pick_blocks_run. cbn zeta. cbn [result calls fst snd].
  intros Hin. apply walk_candidates_selected in Hin.
  destruct Hin as [[] | (c & span & Hc & Hs & Hb & Hsel)].
  apply order_candidates_in in Hc.
  split.
  - apply selected_app_r. now apply selected_cons.
  - exists c, span. repeat split; try lia; [assumption |].
    apply in_or_app. right. now right.
Qed.

End Eligibility.

(** ** When preemption runs *)

Section PreemptionCalls.

Context {World Peer : Type}.
Context {mediator_ : Mediator World Peer} {runtime_ : Runtime World Peer}.

Lemma preempt_run is_sequential block peer (w : World) :
  preempt is_sequential block peer w
  = if is_sequential
    then
      if 0 <? countActiveRequests w block
      then (tt, final (cancelSlowRequest block peer w),
            CountActiveRequests block (countActiveRequests w block)
              :: GetPeersForActiveRequests block
                   (getPeersForActiveRequests w block)
              :: cancellations w block peer)
      else (tt, w, [CountActiveRequests block (countActiveRequests w block)])
    else (tt, w, []).
Proof.
  unfold preempt. destruct is_sequential; [| reflexivity].
  rewrite run_ask_bind.
  destruct (0 <? countActiveRequests w block); [| reflexivity].
  rewrite <- cancelSlowRequest_calls.
  destruct (cancelSlowRequest block peer w) as [[[] w1] t1]. reflexivity.
Qed.

Lemma quiet_app (t1 t2 : list (Event Peer)) :
  quiet t1 -> quiet t2 -> quiet (t1 ++ t2).
Proof. intros H1 H2. apply Forall_app. now split. Qed.

Lemma quiet_guarded (tr : list (Event Peer)) : quiet tr -> guarded tr.
Proof.
  intros Hq pre b peers post ->. unfold quiet in Hq.
  rewrite Forall_forall in Hq.
  specialize (Hq (GetPeersForActiveRequests b peers)).
  cbn in Hq. discriminate Hq. apply in_or_app. right. now left.
Qed.

Lemma guarded_cons e (tr : list (Event Peer)) :
  (forall b peers, e <> GetPeersForActiveRequests b peers) ->
  guarded tr -> guarded (e :: tr).
Proof.
  intros He Hg pre b peers post Heq.
  destruct pre as [| e' pre]; cbn in Heq.
  - injection Heq as Heq _. now apply He in Heq.
  - injection Heq as <- Heq.
    destruct (Hg _ _ _ _ Heq) as (pre' & n & -> & Hn).
    now exists (e :: pre'), n.
Qed.

Lemma guarded_app (t1 t2 : list (Event Peer)) :
  guarded t1 -> guarded t2 -> guarded (t1 ++ t2).
Proof.
  intros H1 H2 pre b peers post Heq.
  apply app_eq_app in Heq.
  destruct Heq as (l & [[-> Heq] | [-> Heq]]).
  - destruct l as [| e l]; cbn in Heq.
    + destruct (H2 [] b peers post) as (pre' & n & Hpre & _);
        [now rewrite <- Heq |].
      now destruct pre' as [| ? [| ? ?]].
    + injection Heq as <- ->.
      apply (H1 pre b peers l). reflexivity.
  - destruct (H2 _ _ _ _ Heq) as (pre' & n & -> & Hn).
    exists (t1 ++ pre'), n. split; [| assumption].
    now rewrite <- app_assoc.
Qed.

Lemma cancellations_quiet_after (w : World) block peer e :
  In e (cancellations w block peer) ->
  forall b peers, e <> GetPeersForActiveRequests b peers.
Proof.
  unfold cancellations.
  destruct (victim w block peer) as [[current_peer when] |]; cbn;
    [| easy].
  intros [<- | []]. discriminate.
Qed.

(** The calls of one preemption step come after the answer [true] to
    [clientCanRequestBlock]. *)
Lemma preempt_guarded is_sequential block peer (w : World) :
  guarded (ClientCanRequestBlock block true
             :: calls (preempt is_sequential block peer w)).
Proof.
  rewrite preempt_run. destruct is_sequential.
  - destruct (Z.ltb_spec 0 (countActiveRequests w block)) as [Hpos | Hnone];
      cbn [calls snd].
    + intros pre b peers post Heq.
      destruct pre as [| e1 [| e2 [| e3 pre]]]; cbn in Heq;
        try discriminate Heq.
      * injection Heq as <- <- <- _ _.
        exists [], (countActiveRequests w block). now split.
      * exfalso. injection Heq as _ _ _ Heq.
        assert (Hin : In (GetPeersForActiveRequests b peers)
                        (cancellations w block peer))
          by (rewrite Heq; apply in_or_app; right; now left).
        now apply (cancellations_quiet_after _ _ _ _ Hin b peers).
    + apply quiet_guarded. repeat constructor.
  - apply quiet_guarded. repeat constructor.
Qed.

Lemma preempt_world_regular block peer (w : World) :
  preempt false block peer w = (tt, w, []).
Proof. reflexivity. Qed.

(** The walk over a piece runs preemption only when guarded. *)
Lemma walk_blocks_guarded n_wanted is_sequential peer todo :
  forall blocks (w : World),
  guarded (calls (walk_blocks n_wanted is_sequential peer todo blocks w)).
Proof.
  induction todo as [| block rest IH]; intros blocks w.
  - apply quiet_guarded. constructor.
  - destruct (Z_lt_le_dec (BlockSet.size blocks) n_wanted) as [Hroom | Hfull].
    + destruct (clientCanRequestBlock w block) eqn:Hcan.
      * rewrite walk_blocks_visit by assumption. cbn zeta.
        cbn [calls snd]. rewrite app_comm_cons.
        apply guarded_app; [apply preempt_guarded |].
        apply guarded_cons; [discriminate |].
        apply guarded_cons; [discriminate |]. apply IH.
      * rewrite walk_blocks_skip by assumption. cbn zeta.
        cbn [calls snd]. apply guarded_cons; [discriminate | apply IH].
    + rewrite walk_blocks_full by assumption.
      apply quiet_guarded. constructor.
Qed.

Lemma walk_candidates_guarded n_wanted is_sequential peer candidates :
  forall blocks (w : World),
  guarded (calls (walk_candidates n_wanted is_sequential peer candidates
                    blocks w)).
Proof.
  induction candidates as [| c rest IH]; intros blocks w.
  - apply quiet_guarded. constructor.
  - destruct (Z_lt_le_dec (BlockSet.size blocks) n_wanted) as [Hroom | Hfull].
    + rewrite walk_candidates_visit by assumption. cbn zeta.
      cbn [calls snd]. apply guarded_cons; [discriminate |].
      apply guarded_app; [apply walk_blocks_guarded | apply IH].
    + rewrite walk_candidates_full by assumption.
      apply quiet_guarded. constructor.
Qed.

(** Outside sequential mode the walks make no call of [cancelSlowRequest]
    and leave the transfer as it is. *)
Lemma walk_blocks_regular n_wanted peer todo :
  forall blocks (w : World),
  final (walk_blocks n_wanted false peer todo blocks w) = w
  /\ quiet (calls (walk_blocks n_wanted false peer todo blocks w)).
Proof.
  induction todo as [| block rest IH]; intros blocks w.
  - split; [reflexivity | constructor].
  - destruct (Z_lt_le_dec (BlockSet.size blocks) n_wanted) as [Hroom | Hfull].
    + destruct (clientCanRequestBlock w block) eqn:Hcan.
      * rewrite walk_blocks_visit by assumption.
        rewrite preempt_world_regular. cbn zeta. cbn [final calls fst snd app].
        destruct (IH (after_check w block blocks) w) as [Hw Hq].
        split; [exact Hw |]. repeat (constructor; [reflexivity |]). exact Hq.
      * rewrite walk_blocks_skip by assumption. cbn zeta.
        cbn [final calls fst snd]. destruct (IH blocks w) as [Hw Hq].
        split; [exact Hw |]. constructor; [reflexivity | exact Hq].
    + rewrite walk_blocks_full by assumption.
      split; [reflexivity | constructor].
Qed.

Lemma walk_candidates_regular n_wanted peer candidates :
  forall blocks (w : World),
  final (walk_candidates n_wanted false peer candidates blocks w) = w
  /\ quiet (calls (walk_candidates n_wanted false peer candidates blocks w)).
Proof.
  induction candidates as [| c rest IH]; intros blocks w.
  - split; [reflexivity | constructor].
  - destruct (Z_lt_le_dec (BlockSet.size blocks) n_wanted) as [Hroom | Hfull].
    + rewrite walk_candidates_visit by assumption. cbn zeta.
      cbn [final calls fst snd].
      destruct (walk_blocks_regular n_wanted peer
                  (range (fst (blockSpan w (Candidate.piece c)))
                     (snd (blockSpan w (Candidate.piece c)))) blocks w)
        as [Hw Hq].
      rewrite Hw. destruct (IH
        (result (walk_blocks n_wanted false peer
                   (range (fst (blockSpan w (Candidate.piece c)))
                      (snd (blockSpan w (Candidate.piece c)))) blocks w)) w)
        as [Hw' Hq'].
      split; [exact Hw' |].
      constructor; [reflexivity |]. now apply quiet_app.
    + rewrite walk_candidates_full by assumption.
      split; [reflexivity | constructor].
Qed.

Lemma getCandidates_quiet (w : World) : quiet (calls (getCandidates w)).
Proof.
  rewrite getCandidates_run. cbn [calls snd]. unfold getCandidates_calls.
  constructor; [reflexivity |]. apply quiet_app.
  - unfold wanted_calls, quiet. apply Forall_flat_map, Forall_forall.
    intros i _. constructor; [reflexivity |].
    destruct (clientCanRequestPiece w i); repeat constructor.
  - constructor; [reflexivity |]. constructor; [reflexivity |].
    unfold quiet. apply Forall_map, Forall_forall. reflexivity.
Qed.

End PreemptionCalls.

(** ** The calls are a faithful log *)

Section Faithful.

Context {World Peer : Type}.
Context {mediator_ : Mediator World Peer} {runtime_ : Runtime World Peer}.

Lemma logs_app (w : World) t1 w1 t2 w2 :
  logs w t1 w1 -> logs w1 t2 w2 -> logs w (t1 ++ t2) w2.
Proof.
  induction 1 as [| w e tr w' Ha _ IH | w peer block tr w' _ IH]; intros H2;
    cbn [app].
  - exact H2.
  - apply logs_query; auto.
  - apply logs_cancel; auto.
Qed.

Lemma reachable_trans (w : World) w1 w2 :
  reachable w w1 -> reachable w1 w2 -> reachable w w2.
Proof.
  intros H1 H2. induction H2 as [| w' peer block _ IH]; [exact H1 |].
  now apply reachable_cancel.
Qed.

Lemma logs_reachable (w : World) tr w' :
  logs w tr w' -> reachable w w'.
Proof.
  induction 1 as [| w e tr w' _ _ IH | w peer block tr w' _ IH].
  - constructor.
  - exact IH.
  - eapply reachable_trans; [| exact IH].
    apply reachable_cancel. constructor.
Qed.

(** A query of a faithful log was answered in a state that cancellations
    lead to; so was the query that follows it, in the same state. *)
Lemma logs_answered (w : World) tr w' pre e post :
  logs w tr w' -> tr = pre ++ e :: post ->
  (forall peer block, e <> CancelRequestForBlock peer block) ->
  exists w1,
    reachable w w1 /\ answered_in w1 e
    /\ forall e' post',
         post = e' :: post' ->
         (forall peer block, e' <> CancelRequestForBlock peer block) ->
         answered_in w1 e'.
Proof.
  intros Hlogs. revert pre.
  induction Hlogs as [| w e0 tr w' Ha Hrest IH | w peer block tr w' Hrest IH];
    intros pre Heq Hq.
  - now destruct pre.
  - destruct pre as [| e1 pre]; cbn in Heq.
    + injection Heq as -> ->. exists w. split; [constructor |].
      split; [exact Ha |]. intros e' post' -> Hq'.
      inversion Hrest as [| ? ? ? ? Ha' _ | ]; subst; [exact Ha' |].
      now destruct (Hq' peer block).
    + injection Heq as -> ->. exact (IH pre eq_refl Hq).
  - destruct pre as [| e1 pre]; cbn in Heq.
    + injection Heq as <- _. now destruct (Hq peer block).
    + injection Heq as _ ->.
      destruct (IH pre eq_refl Hq) as (w1 & Hr & Hrest').
      exists w1. split; [| exact Hrest'].
      eapply reachable_trans; [| exact Hr].
      apply reachable_cancel. constructor.
Qed.

Lemma faithful_ret {A} (a : A) : faithful (ret a).
Proof. intros w. constructor. Qed.

Lemma faithful_bind {A B} (m : M World Peer A) (k : A -> M World Peer B) :
  faithful m -> (forall a, faithful (k a)) -> faithful (bind m k).
Proof.
  intros Hm Hk w. rewrite run_bind. cbn [calls final fst snd].
  eapply logs_app; [apply Hm | apply Hk].
Qed.

Lemma faithful_ask {A} (q : World -> A) (ev : A -> Event Peer) :
  (forall w, answered_in w (ev (q w))) -> faithful (ask q ev).
Proof. intros H w. cbn. apply logs_query; [apply H | constructor]. Qed.

Lemma faithful_observe {A} (q : World -> A) : faithful (observe q).
Proof. intros w. constructor. Qed.

Lemma faithful_cancel peer block : faithful (cancel peer block).
Proof. intros w. cbn. apply logs_cancel. constructor. Qed.

(** One step through a computation: a leaf, a sequence or a branch. *)
Ltac faithful_step :=
  lazymatch goal with
  | |- faithful (ret _) => apply faithful_ret
  | |- faithful (observe _) => apply faithful_observe
  | |- faithful (cancel _ _) => apply faithful_cancel
  | |- faithful (ask _ _) => apply faithful_ask; intros; reflexivity
  | |- faithful (bind _ _) => apply faithful_bind; [| intros ? ]
  | |- faithful (if ?c then _ else _) => destruct c
  end.

Lemma wanted_loop_faithful pieces : forall acc,
  faithful (wanted_loop pieces acc).
Proof.
  induction pieces as [| i rest IH]; intros acc; cbn [wanted_loop];
    repeat faithful_step; apply IH.
Qed.

Lemma candidates_loop_faithful is_sequential W : forall draws acc,
  faithful (candidates_loop is_sequential W draws acc).
Proof.
  induction W as [| [piece n_missing] rest IH]; intros draws acc;
    cbn [candidates_loop]; repeat faithful_step; apply IH.
Qed.

Lemma getCandidates_faithful : faithful getCandidates.
Proof.
  unfold getCandidates. repeat faithful_step.
  - apply wanted_loop_faithful.
  - apply candidates_loop_faithful.
Qed.

Lemma cancelSlowRequest_loop_faithful block now peer_speed peers :
  faithful (cancelSlowRequest_loop block now peer_speed peers).
Proof.
  induction peers as [| [current_peer when] rest IH];
    cbn [cancelSlowRequest_loop]; repeat faithful_step; exact IH.
Qed.

Lemma cancelSlowRequest_faithful block peer :
  faithful (cancelSlowRequest block peer).
Proof.
  unfold cancelSlowRequest. repeat faithful_step.
  apply cancelSlowRequest_loop_faithful.
Qed.

Lemma preempt_faithful is_sequential block peer :
  faithful (preempt is_sequential block peer).
Proof.
  unfold preempt. repeat faithful_step. apply cancelSlowRequest_faithful.
Qed.

Lemma walk_blocks_faithful n_wanted is_sequential peer todo : forall blocks,
  faithful (walk_blocks n_wanted is_sequential peer todo blocks).
Proof.
  induction todo as [| block rest IH]; intros blocks; cbn [walk_blocks];
    repeat faithful_step; try apply IH.
  apply preempt_faithful.
Qed.

Lemma walk_candidates_faithful n_wanted is_sequential peer candidates :
  forall blocks,
  faithful (walk_candidates n_wanted is_sequential peer candidates blocks).
Proof.
  induction candidates as [| c rest IH]; intros blocks; cbn [walk_candidates];
    repeat faithful_step; try apply IH.
  apply walk_blocks_faithful.
Qed.

(** The calls of [next] are a faithful log of the run. *)
Lemma next_faithful n_wanted peer : faithful (next n_wanted peer).
Proof.
  unfold next, pick_blocks. repeat faithful_step.
  - apply getCandidates_faithful.
  - apply walk_candidates_faithful.
Qed.

End Faithful.

(** ** Mediators whose answers outlast a cancellation *)

Section Stable.

Context {World Peer : Type}.
Context {mediator_ : Mediator World Peer} {runtime_ : Runtime World Peer}.

(** Cancelling a request changes neither which blocks can be requested nor
    the spans of the pieces. *)
Hypothesis cancel_keeps_blocks : forall peer block w b,
  clientCanRequestBlock (tr_cancelRequestForBlock peer block w) b
  = clientCanRequestBlock w b.
Hypothesis cancel_keeps_spans : forall peer block w p,
  blockSpan (tr_cancelRequestForBlock peer block w) p = blockSpan w p.

Lemma reachable_keeps (w w' : World) :
  reachable w w' ->
  (forall b, clientCanRequestBlock w' b = clientCanRequestBlock w b)
  /\ (forall p, blockSpan w' p = blockSpan w p).
Proof.
  induction 1 as [| w' peer block _ [IHb IHs]]; [now split |].
  split; intros x.
  - now rewrite cancel_keeps_blocks.
  - now rewrite cancel_keeps_spans.
Qed.

(** For such a mediator the returned blocks are eligible in the state in
    which [next] was called, and each was below the duplication limit in a
    state that the cancellations of the call led to. *)
Lemma next_blocks_eligible_stable n_wanted peer (w : World) b :
  In b (expand (result (next n_wanted peer w))) ->
  clientCanRequestBlock w b = true
  /\ (exists p,
        0 <= p < countAllPieces w
        /\ clientCanRequestPiece w p = true
        /\ 0 < countMissingBlocks w p
        /\ fst (blockSpan w p) <= b < snd (blockSpan w p))
  /\ (exists w_s,
        reachable w w_s
        /\ countActiveRequests w_s b < max_peers (isEndgame w_s)).
Proof.
  intros Hin.
  destruct (Z.eq_dec n_wanted 0) as [-> | Hnz]; [destruct Hin |].
  rewrite next_expand in Hin by assumption.
  apply pick_blocks_eligible in Hin.
  pose proof (next_faithful n_wanted peer w) as Hlogs.
  rewrite next_run in Hlogs by assumption. cbn zeta in Hlogs.
  cbn [calls final fst snd] in Hlogs.
  destruct Hin as [[Hcan Hlimit] (c & span & Hc & Hspan & Hb)].
  destruct (getCandidates_wanted w c Hc) as (Hp & Hreq & _ & Hmissing).
  split; [| split].
  - apply in_split in Hcan. destruct Hcan as (pre & post & Heq).
    destruct (logs_answered _ _ _ _ _ _ Hlogs Heq) as (w1 & Hr & Ha & _);
      [discriminate |].
    cbn in Ha. destruct (reachable_keeps _ _ Hr) as [Hk _].
    now rewrite <- Hk.
  - exists (Candidate.piece c).
    apply in_split in Hspan. destruct Hspan as (pre & post & Heq).
    destruct (logs_answered _ _ _ _ _ _ Hlogs Heq) as (w1 & Hr & Ha & _);
      [discriminate |].
    cbn in Ha. destruct (reachable_keeps _ _ Hr) as [_ Hs].
    rewrite <- Hs, <- Ha. auto.
  - destruct Hlimit as (n_peers & endgame & pre & post & Heq & Hlt).
    destruct (logs_answered _ _ _ _ _ _ Hlogs Heq)
      as (w1 & Hr & Ha & Hnext); [discriminate |].
    specialize (Hnext _ _ eq_refl ltac:(discriminate)).
    cbn in Ha, Hnext. subst n_peers endgame.
    now exists w1.
Qed.

End Stable.

(** ** The in-memory mediator meets the interface *)

Lemma insert_sorted_perm c l : Permutation (c :: l) (Mock.insert_sorted c l).
Proof.
  induction l as [| x l IH]; cbn; [reflexivity |].
  destruct (Candidate.less c x); [reflexivity |].
  rewrite perm_swap. now constructor.
Qed.

Lemma sort_all_perm l : Permutation l (Mock.sort_all l).
Proof.
  induction l as [| c l IH]; cbn; [reflexivity |].
  rewrite <- insert_sorted_perm. now constructor.
Qed.

Lemma insert_sorted_sorted c l :
  Candidate.sorted l -> Candidate.sorted (Mock.insert_sorted c l).
Proof.
  unfold Candidate.sorted.
  induction l as [| x l IH]; cbn; intros Hs.
  - repeat constructor.
  - inversion Hs as [| ? ? Hs' Hall]; subst.
    destruct (Candidate.less c x) eqn:E.
    + constructor; [assumption |].
      constructor; [now apply less_asym |].
      rewrite Forall_forall in *. intros y Hy.
      apply not_less_trans with (b := x); [now apply less_asym | auto].
    + constructor; [auto |].
      rewrite Forall_forall in *. intros y Hy.
      apply (Permutation_in _ (Permutation_sym (insert_sorted_perm c l))) in Hy.
      destruct Hy as [<- | Hy]; auto.
Qed.

Lemma sort_all_sorted l : Candidate.sorted (Mock.sort_all l).
Proof.
  induction l as [| c l IH]; cbn; [constructor |].
  now apply insert_sorted_sorted.
Qed.

Lemma sort_all_prefix_sorted middle l :
  Candidate.sorted (firstn middle (Mock.sort_all l)).
Proof.
  pose proof (sort_all_sorted l) as H. unfold Candidate.sorted in *.
  rewrite <- (firstn_skipn middle (Mock.sort_all l)) in H.
  now apply StronglySorted_app_inv in H.
Qed.

Lemma sort_all_prefix_least middle l a b :
  In a (firstn middle (Mock.sort_all l)) ->
  In b (skipn middle (Mock.sort_all l)) ->
  Candidate.less b a = false.
Proof.
  intros Ha Hb.
  pose proof (sort_all_sorted l) as H. unfold Candidate.sorted in *.
  rewrite <- (firstn_skipn middle (Mock.sort_all l)) in H.
  apply StronglySorted_app_inv in H. destruct H as (_ & _ & H).
  now apply H.
Qed.

Lemma mock_blockSpan_range (lo hi : Z) :
  0 <= fst (Int.u32 lo, Int.u32 hi)
  /\ snd (Int.u32 lo, Int.u32 hi) <= Int.UINT32_MAX.
Proof.
  cbn [fst snd]. unfold Int.u32, Int.UINT32_MAX, Int.u32_mod.
  pose proof (Z.mod_pos_bound lo (2 ^ 32)).
  pose proof (Z.mod_pos_bound hi (2 ^ 32)). lia.
Qed.

#[export] Instance mock_mediator : Mediator Mock.world Mock.peer := {|
  countAllPieces w := Z.of_nat (length (Mock.pieces w));
  clientCanRequestPiece w p := Mock.can_request (Mock.piece_at w p);
  countMissingBlocks w p := Int.u64 (Mock.missing (Mock.piece_at w p));
  priority w p := Mock.prio (Mock.piece_at w p);
  blockSpan w p :=
    (Int.u32 (fst (Mock.span (Mock.piece_at w p))),
     Int.u32 (snd (Mock.span (Mock.piece_at w p))));
  clientCanRequestBlock w b := negb (existsb (Z.eqb b) (Mock.have_blocks w));
  countActiveRequests w b := Z.of_nat (length (Mock.requests_for w b));
  getPeersForActiveRequests w b :=
    map (fun r => (Mock.req_peer r, Mock.req_when r)) (Mock.requests_for w b);
  isSequentialDownload := Mock.sequential;
  sequentialDownloadFromPiece := Mock.from_piece;
  isEndgame := Mock.endgame;
  blockSpan_range w p := mock_blockSpan_range _ _;
  countMissingBlocks_range w p := proj1 (u64_range _)
|}.

#[export] Instance mock_runtime : Runtime Mock.world Mock.peer := {|
  tr_time := Mock.now;
  get_piece_speed_bytes_per_second w p now := Mock.peer_speed p;
  tr_cancelRequestForBlock := Mock.drop_request;
  tr_salt_shaker k := Z.of_nat k;
  partial_sort middle l := Mock.sort_all l;
  partial_sort_perm middle l _ := sort_all_perm l;
  partial_sort_sorted middle l _ := sort_all_prefix_sorted middle l;
  partial_sort_least middle l a b _ := sort_all_prefix_least middle l a b
|}.

Lemma mock_cancel_keeps peer block (w : Mock.world) :
  (forall b, clientCanRequestBlock (tr_cancelRequestForBlock peer block w) b
             = clientCanRequestBlock w b)
  /\ (forall p, blockSpan (tr_cancelRequestForBlock peer block w) p
                = blockSpan w p).
Proof. split; reflexivity. Qed.

Example scenario_A :
  result (next 5 Scenario.new_peer Scenario.A) = [mkSpan 4 9].
Proof. vm_compute. reflexivity. Qed.

Example scenario_B :
  result (next 3 Scenario.new_peer Scenario.B) = [mkSpan 0 1; mkSpan 2 3].
Proof. vm_compute. reflexivity. Qed.

Example scenario_C :
  map Candidate.piece (visited Scenario.C) = [2; 3; 4; 0; 1].
Proof. vm_compute. reflexivity. Qed.

Example scenario_D :
  result (next 3 Scenario.new_peer Scenario.D) = [mkSpan 10 11]
  /\ In (CancelRequestForBlock Scenario.old_peer 10)
       (calls (next 3 Scenario.new_peer Scenario.D)).
Proof. vm_compute. intuition. Qed.

(** In scenario D the picked block can be requested in the state of the
    call, and was below the limit once the slow request was cancelled. *)
Example scenario_D_eligible :
  clientCanRequestBlock Scenario.D 10 = true
  /\ exists w_s,
       reachable Scenario.D w_s
       /\ countActiveRequests w_s 10 < max_peers (isEndgame w_s).
Proof.
  destruct (next_blocks_eligible_stable
              (fun peer block w b => proj1 (mock_cancel_keeps peer block w) b)
              (fun peer block w p => proj2 (mock_cancel_keeps peer block w) p)
              3 Scenario.new_peer Scenario.D 10) as (Hcan & _ & Hlimit).
  - vm_compute. auto.
  - split; assumption.
Qed.

Example scenario_E :
  next 3 (Mock.mkPeer 1 1200) Scenario.D
  = ([], Scenario.D,
     [CountAllPieces 1; ClientCanRequestPiece 0 true; CountMissingBlocks 0 1;
      IsSequentialDownload true; SequentialDownloadFromPiece 0; Priority 0 0;
      IsSequentialDownload true; BlockSpan 0 (10, 11);
      ClientCanRequestBlock 10 true; CountActiveRequests 10 1;
      GetPeersForActiveRequests 10 [(Scenario.old_peer, 99)];
      CountActiveRequests 10 1; IsEndgame false]).
Proof. vm_compute. reflexivity. Qed.

(** * The properties of the specification *)

(** ** The span packer *)

Lemma StronglySorted_impl {A} (R R' : A -> A -> Prop) l :
  (forall a b, R a b -> R' a b) -> StronglySorted R l -> StronglySorted R' l.
Proof.
  intros Himp. induction 1 as [| a l Hs IH Hall]; constructor.
  - exact IH.
  - eapply Forall_impl; [| exact Hall]. auto.
Qed.

Lemma separated_disjoint spans :
  spans_nonempty spans -> spans_separated spans -> spans_disjoint spans.
Proof.
  intros _. apply StronglySorted_impl.
  intros s1 s2 Hsep b H1 H2. unfold expand_span in *.
  apply in_range in H1. apply in_range in H2. lia.
Qed.

(** C2.  Given a strictly ascending sequence of block indices (each below
    the block count [n_blocks] of the transfer, itself a value of
    [tr_block_index_t]), the span packer returns spans that come in
    ascending order of [begin], are pairwise disjoint and never adjacent
    (a later span begins after the end of an earlier one), each hold a
    block, and expand back to the input; for the empty input it returns no
    span. *)
Theorem makeSpans_round_trip (n_blocks : Z) (blocks : list Z) :
  n_blocks <= Int.UINT32_MAX ->
  ascending blocks ->
  Forall (fun b => 0 <= b < n_blocks) blocks ->
  expand (makeSpans blocks) = blocks
  /\ spans_ascending (makeSpans blocks)
  /\ spans_disjoint (makeSpans blocks)
  /\ spans_separated (makeSpans blocks)
  /\ spans_nonempty (makeSpans blocks)
  /\ (blocks = [] -> makeSpans blocks = []).
Proof.
  intros Hn Hasc Hall.
  assert (Hidx : Forall (fun b => 0 <= b < Int.UINT32_MAX) blocks).
  { eapply Forall_impl; [| exact Hall]. cbn beta. intros; lia. }
  destruct (makeSpans_spec blocks Hasc Hidx) as (He & _ & Hne & Hsep).
  split; [exact He |].
  split; [now apply separated_ascending |].
  split; [now apply separated_disjoint |].
  split; [exact Hsep |].
  split; [exact Hne |].
  intros ->. reflexivity.
Qed.

Lemma makeSpans_round_trip_witness :
  makeSpans [4; 5; 6; 7; 9; 11] = [mkSpan 4 8; mkSpan 9 10; mkSpan 11 12]
  /\ expand (makeSpans [4; 5; 6; 7; 9; 11]) = [4; 5; 6; 7; 9; 11].
Proof.
  split; [reflexivity |].
  apply (makeSpans_round_trip 12 [4; 5; 6; 7; 9; 11]).
  - vm_compute. discriminate.
  - repeat constructor.
  - repeat constructor; lia.
Defined.

(** The hypothesis on the blocks is needed: [b + 1] wraps at the largest
    value of [tr_block_index_t].  That value is no block index of a
    transfer, whose block count is a [tr_block_index_t] itself, and [next]
    never picks it ([pick_blocks_indices]). *)
Example makeSpans_at_type_maximum :
  makeSpans [Int.UINT32_MAX] = [mkSpan Int.UINT32_MAX 0]
  /\ expand (makeSpans [Int.UINT32_MAX]) = [].
Proof. split; reflexivity. Qed.

(** ** The budget *)

(** C3.  For every call [next(n_wanted, peer)], the spans returned cover at
    most [n_wanted] block indices in total ([n_wanted] is a [size_t], so it
    is not negative). *)
Theorem next_within_budget {World Peer : Type}
    {mediator_ : Mediator World Peer} {runtime_ : Runtime World Peer}
    (n_wanted : Z) (peer : Peer) (w : World) :
  0 <= n_wanted ->
  span_total (result (next n_wanted peer w)) <= n_wanted.
Proof.
  intros Hn. destruct (Z.eq_dec n_wanted 0) as [-> | Hnz].
  - cbn. lia.
  - rewrite next_run by assumption. cbn zeta. cbn [result fst].
    pose proof (makeSpans_spec _ (pick_blocks_ascending n_wanted peer w)
                  (pick_blocks_indices n_wanted peer w)) as (_ & Ht & _).
    rewrite Ht. apply (pick_blocks_size n_wanted peer w Hn).
Qed.

Lemma next_within_budget_witness :
  0 <= 5
  /\ result (next 5 Scenario.new_peer Scenario.A) = [mkSpan 4 9]
  /\ span_total (result (next 5 Scenario.new_peer Scenario.A)) <= 5.
Proof.
  split; [lia |]. split; [vm_compute; reflexivity |].
  apply (next_within_budget 5 Scenario.new_peer Scenario.A). lia.
Defined.

(** ** The empty request *)

(** C8.  For every peer, [next(0, peer)] returns the empty span list at
    once: it makes no call on the mediator, neither a query nor a
    cancellation, and leaves the transfer as it is. *)
Theorem next_zero {World Peer : Type}
    {mediator_ : Mediator World Peer} {runtime_ : Runtime World Peer}
    (peer : Peer) (w : World) :
  result (next 0 peer w) = []
  /\ calls (next 0 peer w) = []
  /\ final (next 0 peer w) = w.
Proof.
  unfold next. rewrite Z.eqb_refl. unfold ret, result, calls, final.
  cbn [fst snd]. repeat split.
Qed.

(** ** The picked set *)

(** C10.  The blocks handed to the span packer are strictly ascending and
    free of duplicates, whatever spans the mediator reports, overlapping
    ones included; a block counts once toward the budget: inserting a block
    that was picked before leaves the set as it is, and the set never holds
    more than [n_wanted] blocks. *)
Theorem picked_blocks_ordered_unique {World Peer : Type}
    {mediator_ : Mediator World Peer} {runtime_ : Runtime World Peer}
    (n_wanted : Z) (peer : Peer) (w : World) :
  let blocks := result (pick_blocks n_wanted peer w) in
  (n_wanted <> 0 -> result (next n_wanted peer w) = makeSpans blocks)
  /\ ascending blocks
  /\ NoDup blocks
  /\ (forall b, In b blocks -> BlockSet.insert b blocks = blocks)
  /\ (0 <= n_wanted -> BlockSet.size blocks <= n_wanted).
Proof.
  cbn zeta.
  pose proof (pick_blocks_ascending n_wanted peer w) as Hasc.
  split; [intros Hn; now rewrite next_run by assumption |].
  split; [exact Hasc |].
  split; [now apply ascending_NoDup |].
  split; [intros b Hb; now apply insert_present |].
  apply pick_blocks_size.
Qed.

Lemma picked_blocks_ordered_unique_witness :
  result (pick_blocks 5 Scenario.new_peer Scenario.overlapping)
  = [0; 1; 2; 3; 4]
  /\ result (next 5 Scenario.new_peer Scenario.overlapping)
     = makeSpans (result (pick_blocks 5 Scenario.new_peer Scenario.overlapping))
  /\ BlockSet.size
       (result (pick_blocks 5 Scenario.new_peer Scenario.overlapping)) <= 5.
Proof.
  split; [vm_compute; reflexivity |].
  pose proof (picked_blocks_ordered_unique 5 Scenario.new_peer
                Scenario.overlapping) as (Hnext & _ & _ & _ & Hsize).
  split; [apply Hnext; discriminate | apply Hsize; lia].
Defined.

(** ** Eligibility of the returned blocks *)

(** C1.  Let [next(n_wanted, peer)] run in the state [w] (it returns no
    block when [n_wanted] is 0).  The calls it makes are a faithful log:
    each query holds the answer of the mediator in the state of the
    transfer at that moment.  For every block [b] of the returned spans,
    the mediator answered [true] to [clientCanRequestBlock(b)]; [b] lies in
    the span that the mediator gave for a piece [p] which, when the
    candidates were listed, could be requested and had a positive number of
    missing blocks; and the count of active requests of [b] that was read
    again for the duplication check, right before [isEndgame], was below
    [max_peers], which is 2 in endgame and 1 otherwise. *)
Theorem next_blocks_eligible {World Peer : Type}
    {mediator_ : Mediator World Peer} {runtime_ : Runtime World Peer}
    (n_wanted : Z) (peer : Peer) (w : World) (b : Z) :
  In b (expand (result (next n_wanted peer w))) ->
  let tr := calls (next n_wanted peer w) in
  logs w tr (final (next n_wanted peer w))
  /\ In (ClientCanRequestBlock b true) tr
  /\ (exists p span,
        0 <= p < countAllPieces w
        /\ clientCanRequestPiece w p = true
        /\ 0 < countMissingBlocks w p
        /\ In (BlockSpan p span) tr /\ fst span <= b < snd span)
  /\ (exists n_peers endgame pre post,
        tr = pre ++ CountActiveRequests b n_peers
                 :: IsEndgame endgame :: post
        /\ n_peers < (if endgame then 2 else 1)).
Proof.
  intros Hin. cbn zeta. split; [apply next_faithful |].
  destruct (Z.eq_dec n_wanted 0) as [-> | Hnz]; [destruct Hin |].
  rewrite next_expand in Hin by assumption.
  apply pick_blocks_eligible in Hin.
  rewrite next_run by assumption. cbn zeta. cbn [calls snd].
  destruct Hin as [[Hcan Hlimit] (c & span & Hc & Hspan & Hb)].
  destruct (getCandidates_wanted w c Hc) as (Hp & Hreq & _ & Hmissing).
  split; [exact Hcan |]. split; [| exact Hlimit].
  exists (Candidate.piece c), span. auto.
Qed.

Lemma next_blocks_eligible_witness :
  In 2 (expand (result (next 3 Scenario.new_peer Scenario.B)))
  /\ In (ClientCanRequestBlock 2 true)
       (calls (next 3 Scenario.new_peer Scenario.B)).
Proof.
  assert (Hin : In 2 (expand (result (next 3 Scenario.new_peer Scenario.B))))
    by (vm_compute; auto).
  split; [exact Hin |].
  apply (next_blocks_eligible 3 Scenario.new_peer Scenario.B 2 Hin).
Defined.

(** ** The preemption routine *)

(** C4.  [cancelSlowRequest] for [block] and the new peer [peer] asks the
    mediator for the active requests of [block] and then makes at most one
    cancellation.  It makes none, and leaves the transfer as it is, when
    the speed [v_new] of the new peer is 0.  Otherwise it cancels the first
    active request [(P_cur, t)] whose peer has a speed [v_cur] other than 0
    and whose score [r], the [int] that the integer expression
    [v_new / v_cur - ((now - t) * v_new) / BlockSize] yields, is above 1.5;
    the requests before that one were passed over because their peer has
    speed 0 or their score is not above 1.5, and those after it are not
    looked at.  The score is the value of that expression over the
    integers as long as the product fits 64 bits and the quotient and the
    discount fit an [int]. *)
Theorem cancelSlowRequest_cancels_first_slow {World Peer : Type}
    {mediator_ : Mediator World Peer} {runtime_ : Runtime World Peer}
    (block : Z) (peer : Peer) (w : World) :
  let now := tr_time w in
  let v_new := get_piece_speed_bytes_per_second w peer now in
  let active := getPeersForActiveRequests w block in
  let speed := fun p => get_piece_speed_bytes_per_second w p now in
  let above := fun r : Z => 3 < 2 * r in
  (v_new = 0 \/
   (forall request, In request active ->
      speed (fst request) = 0
      \/ ~ above (slow_score v_new (speed (fst request)) now (snd request)))
   ->
   cancelSlowRequest block peer w
   = (tt, w, [GetPeersForActiveRequests block active]))
  /\ (forall before P_cur t after,
        v_new <> 0 ->
        active = before ++ (P_cur, t) :: after ->
        (forall request, In request before ->
           speed (fst request) = 0
           \/ ~ above (slow_score v_new (speed (fst request)) now
                         (snd request))) ->
        speed P_cur <> 0 ->
        above (slow_score v_new (speed P_cur) now t) ->
        cancelSlowRequest block peer w
        = (tt, tr_cancelRequestForBlock P_cur block w,
           [GetPeersForActiveRequests block active;
            CancelRequestForBlock P_cur block]))
  /\ (length (filter is_cancellation
                 (calls (cancelSlowRequest block peer w))) <= 1)%nat
  /\ (forall v_cur t,
        0 <= v_new -> 0 < v_cur -> 0 <= now - t < Int.u64_mod ->
        (now - t) * v_new < Int.u64_mod ->
        v_new / v_cur < 2 ^ 31 ->
        (now - t) * v_new / BlockSize <= 2 ^ 31 ->
        slow_score v_new v_cur now t
        = v_new / v_cur - (now - t) * v_new / BlockSize).
Proof.
  cbn zeta.
  assert (Htest : forall request,
    slower_than w (tr_time w)
      (get_piece_speed_bytes_per_second w peer (tr_time w)) request = false
    <-> (get_piece_speed_bytes_per_second w (fst request) (tr_time w) = 0
         \/ ~ 3 < 2 * slow_score
                      (get_piece_speed_bytes_per_second w peer (tr_time w))
                      (get_piece_speed_bytes_per_second w (fst request)
                         (tr_time w))
                      (tr_time w) (snd request))).
  { intros request. unfold slower_than, is_slow.
    rewrite andb_false_iff, negb_false_iff, Z.eqb_eq, Z.ltb_ge. lia. }
  split; [| split; [| split]]; [| | | intros; now apply slow_score_exact].
  - intros Hnone. rewrite cancelSlowRequest_run. unfold victim.
    destruct (Z.eqb_spec
                (get_piece_speed_bytes_per_second w peer (tr_time w)) 0)
      as [Hz | Hnz]; [reflexivity |].
    destruct Hnone as [Hz | Hnone]; [contradiction |].
    destruct (find _ _) as [request |] eqn:Hfind; [| reflexivity].
    apply find_some in Hfind. destruct Hfind as [Hin Hslow].
    apply Hnone, Htest in Hin. congruence.
  - intros before P_cur t after Hnz Hactive Hbefore Hcur Habove.
    rewrite cancelSlowRequest_run. unfold victim.
    destruct (Z.eqb_spec
                (get_piece_speed_bytes_per_second w peer (tr_time w)) 0)
      as [Hz | _]; [contradiction |].
    rewrite Hactive.
    assert (Hfind : find
      (slower_than w (tr_time w)
         (get_piece_speed_bytes_per_second w peer (tr_time w)))
      (before ++ (P_cur, t) :: after) = Some (P_cur, t)).
    { clear Hactive. induction before as [| request before IH]; cbn [app find].
      - destruct (slower_than _ _ _ (P_cur, t)) eqn:Hs; [reflexivity |].
        apply Htest in Hs. cbn [fst snd] in Hs. tauto.
      - assert (Hr : slower_than w (tr_time w)
                   (get_piece_speed_bytes_per_second w peer (tr_time w))
                   request = false)
          by (apply Htest, Hbefore; now left).
        rewrite Hr. apply IH. intros r Hin. apply Hbefore. now right. }
    rewrite Hfind. reflexivity.
  - rewrite cancelSlowRequest_calls. unfold cancellations.
    destruct (victim w block peer) as [[P_cur t] |]; cbn; lia.
Qed.

Lemma cancelSlowRequest_cancels_first_slow_witness :
  cancelSlowRequest 10 Scenario.new_peer Scenario.D
  = (tt, tr_cancelRequestForBlock Scenario.old_peer 10 Scenario.D,
     [GetPeersForActiveRequests 10 [(Scenario.old_peer, 99)];
      CancelRequestForBlock Scenario.old_peer 10]).
Proof.
  pose proof (cancelSlowRequest_cancels_first_slow 10 Scenario.new_peer
                Scenario.D) as (_ & Hcancel & _).
  apply (Hcancel [] Scenario.old_peer 99 []).
  - vm_compute. discriminate.
  - reflexivity.
  - intros request [].
  - vm_compute. discriminate.
  - vm_compute. reflexivity.
Defined.

(** ** When preemption runs *)

(** C7.  In a call of [next] while the download is not sequential, the
    slow-request preemption never runs: no call of [cancelSlowRequest] is
    made, so no request is cancelled and the transfer is left as it is.
    In every call, each run of [cancelSlowRequest] for a block [b], marked
    by its query for the active requests of [b], comes right after the
    mediator answered [true] to [clientCanRequestBlock(b)] and a positive
    number to [countActiveRequests(b)]. *)
Theorem preemption_only_when_sequential {World Peer : Type}
    {mediator_ : Mediator World Peer} {runtime_ : Runtime World Peer}
    (n_wanted : Z) (peer : Peer) (w : World) :
  (isSequentialDownload w = false ->
   final (next n_wanted peer w) = w
   /\ forall e, In e (calls (next n_wanted peer w)) ->
        (forall p b, e <> CancelRequestForBlock p b)
        /\ (forall b peers, e <> GetPeersForActiveRequests b peers))
  /\ (forall pre b peers post,
        calls (next n_wanted peer w)
        = pre ++ GetPeersForActiveRequests b peers :: post ->
        isSequentialDownload w = true
        /\ exists pre' n_active,
             pre = pre' ++ [ClientCanRequestBlock b true;
                            CountActiveRequests b n_active]
             /\ 0 < n_active).
Proof.
  assert (Hregular : isSequentialDownload w = false ->
    final (next n_wanted peer w) = w /\ quiet (calls (next n_wanted peer w))).
  { intros Hseq. destruct (Z.eq_dec n_wanted 0) as [-> | Hnz].
    - split; [reflexivity | constructor].
    - rewrite next_run, pick_blocks_run by assumption. cbn zeta.
      cbn [final calls fst snd]. rewrite Hseq.
      destruct (walk_candidates_regular n_wanted peer (visited w)
                  BlockSet.empty w) as [Hw Hq].
      split; [exact Hw |].
      apply quiet_app; [apply getCandidates_quiet |].
      constructor; [reflexivity | exact Hq]. }
  assert (Hguarded : guarded (calls (next n_wanted peer w))).
  { destruct (Z.eq_dec n_wanted 0) as [-> | Hnz].
    - apply quiet_guarded. constructor.
    - rewrite next_run, pick_blocks_run by assumption. cbn zeta.
      cbn [calls snd].
      apply guarded_app; [apply quiet_guarded, getCandidates_quiet |].
      apply guarded_cons; [discriminate |]. apply walk_candidates_guarded. }
  split.
  - intros Hseq. destruct (Hregular Hseq) as [Hw Hq].
    split; [exact Hw |]. intros e He.
    unfold quiet in Hq. rewrite Forall_forall in Hq. specialize (Hq e He).
    split; intros; intros ->; discriminate Hq.
  - intros pre b peers post Heq. split; [| exact (Hguarded _ _ _ _ Heq)].
    destruct (isSequentialDownload w) eqn:Hseq; [reflexivity |].
    destruct (Hregular eq_refl) as [_ Hq].
    unfold quiet in Hq. rewrite Forall_forall in Hq.
    specialize (Hq (GetPeersForActiveRequests b peers)).
    cbn in Hq. symmetry. apply Hq. rewrite Heq.
    apply in_or_app. right. now left.
Qed.

Lemma preemption_only_when_sequential_witness :
  final (next 5 Scenario.new_peer Scenario.A) = Scenario.A
  /\ isSequentialDownload Scenario.D = true.
Proof.
  pose proof (preemption_only_when_sequential 5 Scenario.new_peer Scenario.A)
    as [Hregular _].
  pose proof (preemption_only_when_sequential 3 Scenario.new_peer Scenario.D)
    as [_ Hguarded].
  split.
  - apply Hregular. reflexivity.
  - apply (Hguarded
             [CountAllPieces 1; ClientCanRequestPiece 0 true;
              CountMissingBlocks 0 1; IsSequentialDownload true;
              SequentialDownloadFromPiece 0; Priority 0 0;
              IsSequentialDownload true; BlockSpan 0 (10, 11);
              ClientCanRequestBlock 10 true; CountActiveRequests 10 1]
             10 [(Scenario.old_peer, 99)]
             [CancelRequestForBlock Scenario.old_peer 10;
              CountActiveRequests 10 0; IsEndgame false]).
    vm_compute. reflexivity.
Defined.

(** ** The rotation of the wanted pieces *)

Section Rotation.

Context {World Peer : Type}.
Context {mediator_ : Mediator World Peer} {runtime_ : Runtime World Peer}.

(** The candidates stand for the wanted pieces, in their order after the
    rotation step. *)
Lemma getCandidates_pieces (w : World) :
  map Candidate.piece (result (getCandidates w))
  = map fst (wanted_pieces_of w).
Proof.
  rewrite getCandidates_run. cbn [result fst]. apply candidates_of_pieces.
Qed.

(** With a valid origin the wanted piece at index [origin] comes first and
    the ones before it follow the last one. *)
Lemma rotate_wanted_valid origin (W : list (Z * Z)) :
  0 < origin < Z.of_nat (length W) ->
  rotate_wanted true origin W
  = skipn (Z.to_nat origin) W ++ firstn (Z.to_nat origin) W
  /\ hd_error (rotate_wanted true origin W) = nth_error W (Z.to_nat origin).
Proof.
  intros Horigin. unfold rotate_wanted, rotate.
  destruct (Z.ltb_spec 0 origin); [| lia].
  destruct (Z.ltb_spec origin (Z.of_nat (length W))); [| lia].
  cbn [andb]. split; [reflexivity |].
  assert (Hlen : (Z.to_nat origin < length W)%nat) by lia.
  revert Hlen. generalize (Z.to_nat origin) as k. clear.
  induction W as [| x W IH]; intros k Hlen; [cbn in Hlen; lia |].
  destruct k as [| k]; [reflexivity |].
  cbn [skipn firstn nth_error]. cbn in Hlen.
  specialize (IH k ltac:(lia)).
  destruct (skipn k W) as [| y rest] eqn:Hskip.
  - exfalso. apply (f_equal (@length _)) in Hskip.
    rewrite length_skipn in Hskip. cbn in Hskip. lia.
  - cbn in IH |- *. exact IH.
Qed.

(** Without sequential mode, or with an origin that is 0 or not below the
    number of wanted pieces, the wanted pieces keep their order. *)
Lemma rotate_wanted_skipped is_sequential origin (W : list (Z * Z)) :
  is_sequential = false \/ origin <= 0 \/ Z.of_nat (length W) <= origin ->
  rotate_wanted is_sequential origin W = W.
Proof.
  intros H. unfold rotate_wanted.
  destruct is_sequential; cbn [andb]; [| reflexivity].
  destruct (Z.ltb_spec 0 origin); cbn [andb]; [| reflexivity].
  destruct (Z.ltb_spec origin (Z.of_nat (length W))); [| reflexivity].
  destruct H as [H | H]; [discriminate | lia].
Qed.

End Rotation.

(** C5.  In sequential mode with a valid origin the specification has the
    loop consider piece [origin] first.  A run in which it does not: five
    pieces, of which piece 0 is complete and the others are wanted,
    sequential download from piece 2.  The origin 2 is valid, as the wanted
    pieces are [1; 2; 3; 4]; the rotation puts the wanted piece at index 2
    first, and that is piece 3: the loop considers 3, 4, 1 and 2 in this
    order, and a call for one block returns block 3, of piece 3. *)
Theorem rotation_counts_wanted_pieces :
  isSequentialDownload Scenario.seek = true
  /\ sequentialDownloadFromPiece Scenario.seek = 2
  /\ map fst (wanted_of Scenario.seek
                (range 0 (countAllPieces Scenario.seek))) = [1; 2; 3; 4]
  /\ map Candidate.piece (visited Scenario.seek) = [3; 4; 1; 2]
  /\ considered (calls (next 4 Scenario.new_peer Scenario.seek))
     = [3; 4; 1; 2]
  /\ result (next 1 Scenario.new_peer Scenario.seek) = [mkSpan 3 4].
Proof. vm_compute. repeat split. Qed.

(** ** The order of the candidates *)

(** C6, as stated, fails in sequential mode: of two wanted pieces, the
    first with three missing blocks and the second with one, the loop
    visits the first one first, though the second precedes it in the
    least-first order. *)
Lemma sequential_candidates_unsorted :
  isSequentialDownload Scenario.unsorted = true
  /\ map Candidate.piece (visited Scenario.unsorted) = [0; 1]
  /\ ~ StronglySorted (fun a b => ~ Candidate.precedes b a)
       (firstn
          (Nat.min (length (result (getCandidates Scenario.unsorted))) 30)
          (visited Scenario.unsorted)).
Proof.
  split; [reflexivity |]. split; [reflexivity |].
  intros Hsorted. vm_compute in Hsorted.
  inversion Hsorted as [| a l _ Hall]; subst.
  inversion Hall as [| b l' Hfirst _]; subst.
  apply Hfirst. left. reflexivity.
Qed.

(** C6, in the form that holds.  In a call outside sequential mode,
    [next] rearranges the candidates so that the first [K = min(len, 30)]
    that the loop visits are in the least-first order (no later one of them
    precedes an earlier one: fewer missing blocks, then larger priority,
    then smaller salt), and none of the others precedes one of these [K];
    the order of the others is left open.  In sequential mode the
    candidates are not sorted: the loop visits them in the order of the
    wanted pieces after the rotation step, whatever their keys. *)
Theorem visited_order {World Peer : Type}
    {mediator_ : Mediator World Peer} {runtime_ : Runtime World Peer}
    (w : World) :
  let candidates := result (getCandidates w) in
  let K := Nat.min (length candidates) 30 in
  (isSequentialDownload w = false ->
   Permutation candidates (visited w)
   /\ StronglySorted (fun a b => ~ Candidate.precedes b a)
        (firstn K (visited w))
   /\ (forall a b, In a (firstn K (visited w)) ->
         In b (skipn K (visited w)) -> ~ Candidate.precedes b a))
  /\ (isSequentialDownload w = true ->
      visited w = candidates
      /\ map Candidate.piece (visited w) = map fst (wanted_pieces_of w)).
Proof.
  cbn zeta. unfold visited, order_candidates, MaxSortedPieces. split.
  - intros ->. cbn [negb].
    set (candidates := result (getCandidates w)).
    assert (Hmid : (Nat.min (length candidates) 30 <= length candidates)%nat)
      by apply Nat.le_min_l.
    split; [now apply partial_sort_perm |]. split.
    + pose proof (partial_sort_sorted _ _ Hmid) as Hs.
      unfold Candidate.sorted in Hs.
      eapply StronglySorted_impl; [| exact Hs].
      cbn beta. intros a b Hab Hprec. apply less_precedes in Hprec.
      congruence.
    + intros a b Ha Hb Hprec. apply less_precedes in Hprec.
      pose proof (partial_sort_least _ _ a b Hmid Ha Hb). congruence.
  - intros ->. cbn [negb]. split; [reflexivity |].
    apply getCandidates_pieces.
Qed.

Lemma visited_order_witness :
  map Candidate.piece (visited Scenario.A) = [1; 2; 0]
  /\ StronglySorted (fun a b => ~ Candidate.precedes b a)
       (firstn (Nat.min (length (result (getCandidates Scenario.A))) 30)
          (visited Scenario.A))
  /\ visited Scenario.C = result (getCandidates Scenario.C).
Proof.
  split; [vm_compute; reflexivity |].
  pose proof (visited_order Scenario.A) as [Hregular _].
  pose proof (visited_order Scenario.C) as [_ Hsequential].
  split.
  - apply Hregular. reflexivity.
  - apply Hsequential. reflexivity.
Defined.

(** ** The score in machine arithmetic *)

(** While nothing wraps, a cancellation needs a new peer at least twice as
    fast as the current one. *)
Lemma cancel_needs_double_speed v_new v_cur now when :
  0 <= v_new -> 0 < v_cur -> 0 <= now - when < Int.u64_mod ->
  (now - when) * v_new < Int.u64_mod ->
  v_new / v_cur < 2 ^ 31 ->
  (now - when) * v_new / BlockSize <= 2 ^ 31 ->
  is_slow (slow_score v_new v_cur now when) = true ->
  2 * v_cur <= v_new.
Proof.
  intros Hnew Hcur Hdt Hprod Hq Hd Hslow.
  rewrite slow_score_exact in Hslow by assumption.
  apply is_slow_ge_2 in Hslow.
  assert (Hd0 : 0 <= (now - when) * v_new / BlockSize)
    by (apply Z.div_pos; [apply Z.mul_nonneg_nonneg; lia | reflexivity]).
  assert (Hq2 : 2 <= v_new / v_cur) by lia.
  pose proof (Z.mul_div_le v_new v_cur Hcur). nia.
Qed.

(** C9.  The specification has a cancellation occur only when the new
    peer is at least twice as fast as the current one, the time of the
    request not being in the future.  A run in which one occurs for a
    slower new peer: block 10 was requested 524287
    seconds before [now] from a peer that delivers 2^28 bytes per second,
    and the new peer delivers 2^27, half as much.  The quotient of the
    speeds is 0 and the discount is 524287 * 2^27 / 16384 = 2^32 - 8192;
    their difference, taken in 64-bit unsigned arithmetic and converted to
    [int], is 8192, which is above 1.5: the request is cancelled for a peer
    that is slower than the current one. *)
Theorem slow_score_wraps :
  let now := tr_time Scenario.stale in
  let v_new :=
    get_piece_speed_bytes_per_second Scenario.stale Scenario.slow_new_peer
      now in
  let v_cur :=
    get_piece_speed_bytes_per_second Scenario.stale Scenario.fast_old_peer
      now in
  getPeersForActiveRequests Scenario.stale 10
  = [(Scenario.fast_old_peer, 1700000000)]
  /\ 1700000000 <= now
  /\ v_new < 2 * v_cur
  /\ v_new / v_cur = 0
  /\ (now - 1700000000) * v_new / BlockSize = 2 ^ 32 - 8192
  /\ slow_score v_new v_cur now 1700000000 = 8192
  /\ calls (cancelSlowRequest 10 Scenario.slow_new_peer Scenario.stale)
     = [GetPeersForActiveRequests 10 [(Scenario.fast_old_peer, 1700000000)];
        CancelRequestForBlock Scenario.fast_old_peer 10].
Proof. vm_compute. repeat split; discriminate. Qed.

(** * Further properties of the code *)

(** ** The order of the candidates *)

(** X1.  [Candidate::compare] is a three-way comparison: swapping the
    candidates negates the answer, the answer is 0 exactly when the three
    keys agree, and [operator<] holds exactly when the answer is -1. *)
Theorem compare_three_way (a b : Candidate.t) :
  Candidate.compare b a = - Candidate.compare a b
  /\ (Candidate.compare a b = 0 <-> same_keys a b)
  /\ (Candidate.less a b = true <-> Candidate.compare a b = -1).
Proof.
  unfold Candidate.less.
  destruct (compare_spec a b) as [[Hab H] | [[Hab H] | [Hab H]]];
    destruct (compare_spec b a) as [[Hba H'] | [[Hba H'] | [Hba H']]];
    rewrite Hab, Hba;
    unfold Candidate.precedes, same_keys in *;
    (split; [try reflexivity; exfalso; lia |]);
    (split; split; intros; try discriminate; try reflexivity;
     try assumption; try lia).
Qed.

(** X2.  [operator<] of the candidates is a strict weak ordering, which is
    what [std::partial_sort] asks of it: it is irreflexive and transitive,
    and being neither less nor greater is transitive too. *)
Theorem less_strict_weak_order :
  (forall a, Candidate.less a a = false)
  /\ (forall a b c,
        Candidate.less a b = true -> Candidate.less b c = true ->
        Candidate.less a c = true)
  /\ (forall a b c, equivalent a b -> equivalent b c -> equivalent a c).
Proof.
  split; [exact less_irrefl |]. split; [exact less_trans |].
  intros a b c [Hab Hba] [Hbc Hcb]. split.
  - now apply not_less_trans with (b := b).
  - now apply not_less_trans with (b := b).
Qed.

(** ** The span packer on the blocks of spans *)

(** A block at the end of the span being grown extends it. *)
Lemma makeSpans_loop_extend n : forall lo e rest spans,
  0 <= lo < e -> e + Z.of_nat n <= Int.UINT32_MAX ->
  makeSpans_loop (range e (e + Z.of_nat n) ++ rest) (mkSpan lo e) spans
  = makeSpans_loop rest (mkSpan lo (e + Z.of_nat n)) spans.
Proof.
  induction n as [| n IH]; intros lo e rest spans Hlo Hmax.
  - rewrite range_nil by lia. cbn [app]. do 2 f_equal. lia.
  - rewrite range_cons by lia. cbn [app makeSpans_loop span_end span_begin].
    rewrite Z.eqb_refl.
    rewrite u32_small by (unfold Int.UINT32_MAX in *; lia).
    replace (e + Z.of_nat (S n)) with (e + 1 + Z.of_nat n) by lia.
    apply IH; lia.
Qed.

Lemma makeSpans_loop_run lo e hi rest spans :
  0 <= lo < e -> e <= hi <= Int.UINT32_MAX ->
  makeSpans_loop (range e hi ++ rest) (mkSpan lo e) spans
  = makeSpans_loop rest (mkSpan lo hi) spans.
Proof.
  intros Hlo Hhi.
  replace hi with (e + Z.of_nat (Z.to_nat (hi - e))) by lia.
  apply makeSpans_loop_extend; lia.
Qed.

Lemma expand_cons s spans :
  expand (s :: spans) = range (span_begin s) (span_end s) ++ expand spans.
Proof. reflexivity. Qed.

Lemma makeSpans_expand spans :
  spans_nonempty spans -> spans_separated spans -> spans_within spans ->
  makeSpans (expand spans) = spans.
Proof.
  unfold spans_nonempty, spans_separated, spans_within.
  induction spans as [| [lo hi] spans IH]; intros Hne Hsep Hin;
    [reflexivity |].
  inversion Hne as [| ? ? Hs Hne']; subst.
  inversion Hsep as [| ? ? Hsep' Hall]; subst.
  inversion Hin as [| ? ? Hr Hin']; subst.
  cbn [span_begin span_end] in *.
  specialize (IH Hne' Hsep' Hin').
  rewrite expand_cons. cbn [span_begin span_end].
  rewrite range_cons by lia. cbn [app makeSpans].
  rewrite single_exact by lia.
  rewrite makeSpans_loop_run by lia.
  destruct spans as [| [lo2 hi2] spans]; [reflexivity |].
  inversion Hne' as [| ? ? Hs2 _]; subst.
  inversion Hin' as [| ? ? Hr2 _]; subst.
  inversion Hall as [| ? ? Hgap _]; subst.
  cbn [span_begin span_end] in *.
  rewrite expand_cons in *. cbn [span_begin span_end] in *.
  rewrite range_cons in * by lia. cbn [app makeSpans makeSpans_loop] in *.
  cbn [span_end].
  destruct (Z.eqb_spec hi lo2) as [Heq | _]; [lia |].
  rewrite makeSpans_loop_acc. cbn [app]. now rewrite IH.
Qed.

(** X3.  Packing is the inverse of expanding as well: for spans that each
    hold a block, lie in the range of the index type and are separated (a
    later span begins after the end of an earlier one), packing the blocks
    they stand for gives the same spans back.  In particular a run of
    consecutive blocks is packed into one span. *)
Theorem makeSpans_of_expansion (spans : list tr_block_span_t) :
  spans_nonempty spans -> spans_separated spans -> spans_within spans ->
  makeSpans (expand spans) = spans
  /\ (forall lo hi,
        spans = [mkSpan lo hi] -> makeSpans (range lo hi) = [mkSpan lo hi]).
Proof.
  intros Hne Hsep Hin. split; [now apply makeSpans_expand |].
  intros lo hi ->.
  pose proof (makeSpans_expand _ Hne Hsep Hin) as H.
  unfold expand, expand_span in H. cbn in H. now rewrite app_nil_r in H.
Qed.

Lemma makeSpans_of_expansion_witness :
  makeSpans (expand [mkSpan 4 8; mkSpan 9 10; mkSpan 11 12])
  = [mkSpan 4 8; mkSpan 9 10; mkSpan 11 12].
Proof.
  apply (makeSpans_of_expansion [mkSpan 4 8; mkSpan 9 10; mkSpan 11 12]).
  - repeat constructor.
  - repeat constructor.
  - repeat constructor; cbn; try lia; vm_compute; discriminate.
Defined.

(** ** The spans that [next] returns *)

Lemma in_expand spans b :
  In b (expand spans)
  <-> exists s, In s spans /\ span_begin s <= b < span_end s.
Proof.
  unfold expand, expand_span. rewrite in_flat_map.
  split; intros (s & Hs & Hb); exists s; (split; [assumption |]);
    now apply in_range.
Qed.

Lemma expand_within spans :
  spans_nonempty spans ->
  Forall (fun b => 0 <= b < Int.UINT32_MAX) (expand spans) ->
  spans_within spans.
Proof.
  unfold spans_nonempty, spans_within. rewrite !Forall_forall.
  intros Hne Hall s Hs. specialize (Hne s Hs).
  assert (H1 : In (span_begin s) (expand spans))
    by (apply in_expand; exists s; split; [assumption | lia]).
  assert (H2 : In (span_end s - 1) (expand spans))
    by (apply in_expand; exists s; split; [assumption | lia]).
  apply Hall in H1. apply Hall in H2. lia.
Qed.

(** X4.  The spans that [next] returns, for any mediator, peer and budget,
    each hold a block, lie in the range of the index type, come in
    ascending order of [begin], and a later one begins after the end of an
    earlier one (so they are disjoint and never adjacent: adjacent runs
    are merged); packing their blocks again gives the same spans. *)
Theorem next_spans_well_formed {World Peer : Type}
    {mediator_ : Mediator World Peer} {runtime_ : Runtime World Peer}
    (n_wanted : Z) (peer : Peer) (w : World) :
  let spans := result (next n_wanted peer w) in
  spans_nonempty spans
  /\ spans_within spans
  /\ spans_ascending spans
  /\ spans_separated spans
  /\ spans_disjoint spans
  /\ makeSpans (expand spans) = spans.
Proof.
  cbn zeta.
  assert (H : spans_nonempty (result (next n_wanted peer w))
              /\ spans_separated (result (next n_wanted peer w))
              /\ spans_within (result (next n_wanted peer w))).
  { destruct (Z.eq_dec n_wanted 0) as [-> | Hnz].
    - cbn. repeat split; constructor.
    - pose proof (next_expand n_wanted peer w Hnz) as Hexp.
      rewrite next_run in * by assumption. cbn zeta in *.
      cbn [result fst] in *.
      destruct (makeSpans_spec _ (pick_blocks_ascending n_wanted peer w)
                  (pick_blocks_indices n_wanted peer w))
        as (_ & _ & Hne & Hsep).
      repeat split; try assumption.
      apply expand_within; [assumption |]. rewrite Hexp.
      apply pick_blocks_indices. }
  destruct H as (Hne & Hsep & Hin).
  split; [assumption |]. split; [assumption |].
  split; [now apply separated_ascending |]. split; [assumption |].
  split; [now apply separated_disjoint | now apply makeSpans_expand].
Qed.

(** ** The candidates that [getCandidates] lists *)

Section Listing.

Context {World Peer : Type}.
Context {mediator_ : Mediator World Peer} {runtime_ : Runtime World Peer}.

Lemma range_ascending_from n : forall lo,
  ascending (range lo (lo + Z.of_nat n)).
Proof.
  unfold ascending. induction n as [| n IH]; intros lo.
  - rewrite range_nil by lia. constructor.
  - rewrite range_cons by lia. constructor.
    + replace (lo + Z.of_nat (S n)) with (lo + 1 + Z.of_nat n) by lia.
      apply IH.
    + apply Forall_forall. intros x Hx. apply in_range in Hx. lia.
Qed.

Lemma range_NoDup lo hi : NoDup (range lo hi).
Proof.
  destruct (Z_lt_le_dec lo hi) as [Hlt | Hge].
  - apply ascending_NoDup.
    replace hi with (lo + Z.of_nat (Z.to_nat (hi - lo))) by lia.
    apply range_ascending_from.
  - rewrite range_nil by lia. constructor.
Qed.

Lemma wanted_of_pieces (w : World) pieces :
  map fst (wanted_of w pieces) = filter (wanted w) pieces.
Proof.
  unfold wanted_of. rewrite map_map. cbn [fst]. apply map_id.
Qed.

Lemma rotate_perm {A} k (l : list A) : Permutation (rotate k l) l.
Proof.
  unfold rotate. rewrite Permutation_app_comm. now rewrite firstn_skipn.
Qed.

Lemma rotate_wanted_perm is_sequential origin (W : list (Z * Z)) :
  Permutation (rotate_wanted is_sequential origin W) W.
Proof.
  unfold rotate_wanted. destruct (_ && _); [apply rotate_perm | reflexivity].
Qed.

Lemma candidates_of_keys (w : World) is_sequential W : forall draws c,
  In c (candidates_of w is_sequential draws W) ->
  Candidate.priority c = priority w (Candidate.piece c)
  /\ (is_sequential = true -> Candidate.salt c = Candidate.piece c).
Proof.
  induction W as [| [piece n_missing] rest IH]; intros draws c; cbn;
    [easy |].
  intros [<- | Hin]; [| eauto].
  cbn. split; [reflexivity |]. now intros ->.
Qed.

Lemma candidates_of_salts (w : World) W : forall draws,
  map Candidate.salt (candidates_of w false draws W)
  = map tr_salt_shaker (seq draws (length W)).
Proof.
  induction W as [| [piece n_missing] rest IH]; intros draws; cbn;
    [reflexivity |].
  now rewrite IH.
Qed.

Lemma candidates_of_length (w : World) is_sequential W : forall draws,
  length (candidates_of w is_sequential draws W) = length W.
Proof.
  induction W as [| [piece n_missing] rest IH]; intros draws; cbn;
    [reflexivity |].
  now rewrite IH.
Qed.

(** The pieces of the candidates are the wanted pieces, up to the order. *)
Lemma getCandidates_pieces_perm (w : World) :
  Permutation (map Candidate.piece (result (getCandidates w)))
    (filter (wanted w) (range 0 (countAllPieces w))).
Proof.
  rewrite getCandidates_pieces. unfold wanted_pieces_of.
  rewrite <- wanted_of_pieces. apply Permutation_map, rotate_wanted_perm.
Qed.

End Listing.

(** X5.  [getCandidates] changes nothing in the transfer and lists each
    wanted piece exactly once: the pieces of the candidates are pairwise
    distinct, and a piece is among them exactly when it is a piece of the
    transfer that the mediator says can be requested and has a count of
    missing blocks other than 0.  Every candidate carries the count of
    missing blocks and the priority that the mediator gives for its
    piece. *)
Theorem getCandidates_lists_wanted_pieces {World Peer : Type}
    {mediator_ : Mediator World Peer} {runtime_ : Runtime World Peer}
    (w : World) :
  let candidates := result (getCandidates w) in
  final (getCandidates w) = w
  /\ NoDup (map Candidate.piece candidates)
  /\ (forall p,
        In p (map Candidate.piece candidates)
        <-> 0 <= p < countAllPieces w
            /\ clientCanRequestPiece w p = true
            /\ countMissingBlocks w p <> 0)
  /\ (forall c,
        In c candidates ->
        Candidate.n_blocks_missing c
        = countMissingBlocks w (Candidate.piece c)
        /\ Candidate.priority c = priority w (Candidate.piece c)).
Proof.
  cbn zeta. pose proof (getCandidates_pieces_perm w) as Hperm.
  split; [now rewrite getCandidates_run |]. split; [| split].
  - eapply Permutation_NoDup; [symmetry; exact Hperm |].
    apply NoDup_filter, range_NoDup.
  - intros p. split.
    + intros Hin. apply (Permutation_in _ Hperm) in Hin.
      apply filter_In in Hin. destruct Hin as [Hr Hw].
      apply in_range in Hr. unfold wanted in Hw.
      apply andb_true_iff in Hw. destruct Hw as [Hcan Hnz].
      apply negb_true_iff, Z.eqb_neq in Hnz. auto.
    + intros (Hr & Hcan & Hnz).
      apply (Permutation_in _ (Permutation_sym Hperm)).
      apply filter_In. split; [now apply in_range |].
      unfold wanted. rewrite Hcan. cbn [andb].
      now apply negb_true_iff, Z.eqb_neq.
  - intros c Hc.
    destruct (getCandidates_wanted w c Hc) as (_ & _ & Hm & _).
    split; [exact Hm |].
    rewrite getCandidates_run in Hc. cbn [result fst] in Hc.
    now apply candidates_of_keys in Hc.
Qed.

(** X6.  The tie-breaking key and the order of the candidates.  In
    sequential mode the salt of a candidate is its piece index.  Outside
    sequential mode the wanted pieces are listed in ascending order of
    their index, and the candidate at position [k] takes the [k]-th value
    drawn from the salt shaker. *)
Theorem getCandidates_salts {World Peer : Type}
    {mediator_ : Mediator World Peer} {runtime_ : Runtime World Peer}
    (w : World) :
  let candidates := result (getCandidates w) in
  (isSequentialDownload w = true ->
   forall c, In c candidates -> Candidate.salt c = Candidate.piece c)
  /\ (isSequentialDownload w = false ->
      map Candidate.piece candidates
      = filter (wanted w) (range 0 (countAllPieces w))
      /\ ascending (map Candidate.piece candidates)
      /\ map Candidate.salt candidates
         = map tr_salt_shaker (seq 0 (length candidates))).
Proof.
  cbn zeta. rewrite getCandidates_run. cbn [result fst]. split.
  - intros Hseq c Hc. rewrite Hseq in Hc.
    apply candidates_of_keys in Hc. destruct Hc as [_ Hsalt]. now apply Hsalt.
  - intros Hseq. unfold wanted_pieces_of. rewrite Hseq.
    rewrite rotate_wanted_skipped by now left.
    rewrite candidates_of_pieces, wanted_of_pieces, candidates_of_length.
    split; [reflexivity |]. split.
    + unfold ascending.
      assert (Hasc : StronglySorted Z.lt (range 0 (countAllPieces w))).
      { destruct (Z_lt_le_dec 0 (countAllPieces w)).
        - replace (countAllPieces w)
            with (0 + Z.of_nat (Z.to_nat (countAllPieces w - 0))) by lia.
          apply range_ascending_from.
        - rewrite range_nil by lia. constructor. }
      revert Hasc. generalize (range 0 (countAllPieces w)) as l.
      induction l as [| x l IH]; intros Hasc; cbn; [constructor |].
      inversion Hasc as [| ? ? Hs Hall]; subst.
      destruct (wanted w x); [| auto].
      constructor; [auto |].
      apply Forall_forall. intros y Hy. apply filter_In in Hy.
      rewrite Forall_forall in Hall. apply Hall. tauto.
    + now rewrite candidates_of_salts.
Qed.

Lemma getCandidates_salts_witness :
  (forall c, In c (result (getCandidates Scenario.C)) ->
             Candidate.salt c = Candidate.piece c)
  /\ map Candidate.salt (result (getCandidates Scenario.A))
     = map tr_salt_shaker
         (seq 0 (length (result (getCandidates Scenario.A)))).
Proof.
  pose proof (getCandidates_salts Scenario.A) as [_ Hregular].
  pose proof (getCandidates_salts Scenario.C) as [Hsequential _].
  split.
  - apply Hsequential. reflexivity.
  - apply Hregular. reflexivity.
Defined.

(** ** The order of a sequential download *)

Section SequentialOrder.

Context {World Peer : Type}.
Context {mediator_ : Mediator World Peer} {runtime_ : Runtime World Peer}.

Lemma range_app lo mid hi :
  lo <= mid <= hi -> range lo hi = range lo mid ++ range mid hi.
Proof.
  intros H. replace mid with (lo + Z.of_nat (Z.to_nat (mid - lo))) by lia.
  assert (Hn : lo + Z.of_nat (Z.to_nat (mid - lo)) <= hi) by lia.
  revert Hn. generalize (Z.to_nat (mid - lo)) as n. clear H.
  intros n. revert lo. induction n as [| n IH]; intros lo Hn.
  - rewrite (range_nil lo (lo + Z.of_nat 0)) by lia.
    cbn [app]. do 2 f_equal. lia.
  - rewrite (range_cons lo hi), (range_cons lo (lo + Z.of_nat (S n))) by lia.
    cbn [app]. f_equal.
    replace (lo + Z.of_nat (S n)) with (lo + 1 + Z.of_nat n) by lia.
    apply IH. lia.
Qed.

Lemma filter_all {A} (f : A -> bool) l :
  (forall x, In x l -> f x = true) -> filter f l = l.
Proof.
  induction l as [| x l IH]; intros H; cbn; [reflexivity |].
  rewrite (H x) by now left. f_equal. apply IH. intros y Hy. apply H.
  now right.
Qed.

Lemma length_range_nat lo hi : length (range lo hi) = Z.to_nat (hi - lo).
Proof. unfold range. now rewrite length_map, length_seq. Qed.

(** When the pieces up to [k] all pass, the piece at position [k] of the
    filtered list is piece [k]. *)
Lemma filter_range_nth (f : Z -> bool) n k :
  0 <= k < n -> (forall i, 0 <= i <= k -> f i = true) ->
  nth_error (filter f (range 0 n)) (Z.to_nat k) = Some k
  /\ k < Z.of_nat (length (filter f (range 0 n))).
Proof.
  intros Hk Hall.
  rewrite (range_app 0 (k + 1) n), filter_app by lia.
  rewrite (filter_all f (range 0 (k + 1)))
    by (intros x Hx; apply in_range in Hx; apply Hall; lia).
  split.
  - rewrite nth_error_app1 by (rewrite length_range_nat; lia).
    rewrite range_snoc by lia.
    rewrite nth_error_app2 by (rewrite length_range_nat; lia).
    rewrite length_range_nat.
    replace (Z.to_nat k - Z.to_nat (k - 0))%nat with 0%nat by lia.
    reflexivity.
  - rewrite length_app, length_range_nat. lia.
Qed.

Lemma visited_sequential (w : World) :
  isSequentialDownload w = true ->
  map Candidate.piece (visited w)
  = map fst
      (rotate_wanted true (sequentialDownloadFromPiece w)
         (wanted_of w (range 0 (countAllPieces w)))).
Proof.
  intros Hseq. unfold visited, order_candidates. rewrite Hseq. cbn [negb].
  rewrite getCandidates_pieces. unfold wanted_pieces_of. now rewrite Hseq.
Qed.

End SequentialOrder.

(** X7.  The order of a sequential download.  Let [W] be the wanted pieces
    in ascending order and [origin] the answer to
    [sequentialDownloadFromPiece].  When [0 < origin < len(W)] the loop
    visits the wanted pieces from position [origin] of [W] on, then those
    before it; otherwise it visits [W] as it is.  When moreover every
    piece from 0 to [origin] is wanted, the piece at that position is piece
    [origin], so the download starts with piece [origin]. *)
Theorem sequential_visiting_order {World Peer : Type}
    {mediator_ : Mediator World Peer} {runtime_ : Runtime World Peer}
    (w : World) :
  isSequentialDownload w = true ->
  let W := filter (wanted w) (range 0 (countAllPieces w)) in
  let origin := sequentialDownloadFromPiece w in
  (0 < origin < Z.of_nat (length W) ->
   map Candidate.piece (visited w)
   = skipn (Z.to_nat origin) W ++ firstn (Z.to_nat origin) W)
  /\ (origin <= 0 \/ Z.of_nat (length W) <= origin ->
      map Candidate.piece (visited w) = W)
  /\ (0 < origin < countAllPieces w ->
      (forall i, 0 <= i <= origin -> wanted w i = true) ->
      hd_error (map Candidate.piece (visited w)) = Some origin).
Proof.
  intros Hseq. cbn zeta. rewrite (visited_sequential w Hseq).
  rewrite <- wanted_of_pieces.
  assert (Hlen : length (map fst (wanted_of w (range 0 (countAllPieces w))))
                 = length (wanted_of w (range 0 (countAllPieces w))))
    by apply length_map.
  split; [| split].
  - intros Horigin. rewrite Hlen in Horigin.
    destruct (rotate_wanted_valid _ _ Horigin) as [-> _].
    now rewrite map_app, skipn_map, firstn_map.
  - intros Horigin. rewrite Hlen in Horigin.
    rewrite rotate_wanted_skipped; [reflexivity | now right].
  - intros Horigin Hall.
    destruct (filter_range_nth (wanted w) (countAllPieces w)
                (sequentialDownloadFromPiece w)) as [Hnth Hlt];
      [lia | exact Hall |].
    rewrite <- wanted_of_pieces in Hnth, Hlt. rewrite Hlen in Hlt.
    destruct (rotate_wanted_valid (sequentialDownloadFromPiece w)
                (wanted_of w (range 0 (countAllPieces w)))) as [_ Hhd];
      [lia |].
    rewrite nth_error_map in Hnth.
    destruct (rotate_wanted true _ _) as [| x l]; cbn in Hhd |- *;
      rewrite <- Hhd in Hnth; cbn in Hnth; [discriminate | exact Hnth].
Qed.

Lemma sequential_visiting_order_witness :
  map Candidate.piece (visited Scenario.C) = [2; 3; 4; 0; 1]
  /\ hd_error (map Candidate.piece (visited Scenario.C)) = Some 2.
Proof.
  pose proof (sequential_visiting_order Scenario.C eq_refl)
    as (Hrotated & _ & Hstart).
  split.
  - apply Hrotated. vm_compute. split; reflexivity.
  - apply Hstart.
    + vm_compute. split; reflexivity.
    + intros i Hi.
      assert (Hcases : i = 0 \/ i = 1 \/ i = 2)
        by (change (sequentialDownloadFromPiece Scenario.C) with 2 in Hi; lia).
      destruct Hcases as [-> | [-> | ->]]; reflexivity.
Defined.

(** ** The block walk outside sequential mode *)

Section RegularMode.

Context {World Peer : Type}.
Context {mediator_ : Mediator World Peer} {runtime_ : Runtime World Peer}.

Lemma insert_size_ge b s :
  BlockSet.size s <= BlockSet.size (BlockSet.insert b s).
Proof.
  unfold BlockSet.size. induction s as [| y s IH]; cbn [BlockSet.insert].
  - cbn. lia.
  - destruct (b <? y); [cbn [length]; lia |].
    destruct (b =? y); cbn [length]; lia.
Qed.

Lemma eligible_spec (w : World) b :
  eligible w b = true
  <-> clientCanRequestBlock w b = true
      /\ countActiveRequests w b < (if isEndgame w then 2 else 1).
Proof. unfold eligible. now rewrite andb_true_iff, Z.ltb_lt. Qed.

Lemma after_check_eligible (w : World) block blocks :
  clientCanRequestBlock w block = true ->
  after_check w block blocks
  = if eligible w block then BlockSet.insert block blocks else blocks.
Proof.
  intros Hcan. unfold after_check, eligible. rewrite Hcan. cbn [andb].
  destruct (Z.leb_spec (if isEndgame w then 2 else 1)
              (countActiveRequests w block));
    destruct (Z.ltb_spec (countActiveRequests w block)
                (if isEndgame w then 2 else 1)); try reflexivity; lia.
Qed.

(** What the walk over the blocks [todo] of a piece leaves, outside
    sequential mode: it keeps what was picked, adds only eligible blocks of
    [todo], and passes over an eligible block only when the budget is
    spent. *)
Lemma walk_blocks_regular_result n_wanted peer todo :
  forall blocks (w : World),
  let r := result (walk_blocks n_wanted false peer todo blocks w) in
  (forall b, In b blocks -> In b r)
  /\ BlockSet.size blocks <= BlockSet.size r
  /\ (forall b, In b r -> In b blocks \/ (In b todo /\ eligible w b = true))
  /\ (BlockSet.size r < n_wanted ->
      forall b, In b todo -> eligible w b = true -> In b r).
Proof.
  induction todo as [| block rest IH]; intros blocks w; cbn zeta.
  - cbn. repeat split; auto; try lia; try (intros _ b []).
  - destruct (Z_lt_le_dec (BlockSet.size blocks) n_wanted) as [Hroom | Hfull].
    + destruct (clientCanRequestBlock w block) eqn:Hcan.
      * rewrite walk_blocks_visit by assumption.
        rewrite preempt_world_regular. cbn zeta. cbn [result final fst snd].
        rewrite after_check_eligible by assumption.
        destruct (IH (if eligible w block
                      then BlockSet.insert block blocks else blocks) w)
          as (Hkeep & Hsize & Hfrom & Hall).
        destruct (eligible w block) eqn:Hel.
        -- repeat split.
           ++ intros b Hb. apply Hkeep, insert_in. now right.
           ++ pose proof (insert_size_ge block blocks). lia.
           ++ intros b Hb. apply Hfrom in Hb.
              destruct Hb as [Hb | [Hb He]]; [| right; split; auto; now right].
              apply insert_in in Hb.
              destruct Hb as [-> | Hb];
                [right; split; auto; now left | now left].
           ++ intros Hlt b [<- | Hb] He; [| now apply Hall].
              apply Hkeep, insert_in. now left.
        -- repeat split; try assumption.
           ++ intros b Hb. apply Hfrom in Hb.
              destruct Hb as [Hb | [Hb He]]; [now left |].
              right. split; [now right | assumption].
           ++ intros Hlt b [<- | Hb] He; [congruence | now apply Hall].
      * rewrite walk_blocks_skip by assumption. cbn zeta.
        cbn [result fst].
        destruct (IH blocks w) as (Hkeep & Hsize & Hfrom & Hall).
        repeat split; try assumption.
        -- intros b Hb. apply Hfrom in Hb.
           destruct Hb as [Hb | [Hb He]]; [now left |].
           right. split; [now right | assumption].
        -- intros Hlt b [<- | Hb] He; [| now apply Hall].
           apply eligible_spec in He. destruct He as [He _]. congruence.
    + rewrite walk_blocks_full by assumption. cbn [result fst].
      repeat split; auto; try lia.
Qed.

Lemma walk_candidates_spent n_wanted is_sequential peer candidates blocks
    (w : World) :
  n_wanted <= BlockSet.size blocks ->
  walk_candidates n_wanted is_sequential peer candidates blocks w
  = (blocks, w, []).
Proof.
  intros Hfull. destruct candidates as [| c rest]; [reflexivity |].
  now apply walk_candidates_full.
Qed.

Lemma in_span_of_cons (w : World) c rest b :
  in_span_of w (c :: rest) b
  <-> fst (blockSpan w (Candidate.piece c)) <= b
      < snd (blockSpan w (Candidate.piece c))
      \/ in_span_of w rest b.
Proof.
  unfold in_span_of. split.
  - intros (c' & [<- | Hc] & Hb); [now left | right; eauto].
  - intros [Hb | (c' & Hc & Hb)]; [exists c | exists c']; cbn; auto.
Qed.

(** The same for the loop over the candidates. *)
Lemma walk_candidates_regular_result n_wanted peer candidates :
  forall blocks (w : World),
  let r := result (walk_candidates n_wanted false peer candidates blocks w) in
  (forall b, In b blocks -> In b r)
  /\ BlockSet.size blocks <= BlockSet.size r
  /\ (forall b, In b r ->
        In b blocks \/ (in_span_of w candidates b /\ eligible w b = true))
  /\ (BlockSet.size r < n_wanted ->
      forall b, in_span_of w candidates b -> eligible w b = true -> In b r).
Proof.
  induction candidates as [| c rest IH]; intros blocks w; cbn zeta.
  - cbn. repeat split; auto; try lia.
    intros _ b (c & [] & _).
  - destruct (Z_lt_le_dec (BlockSet.size blocks) n_wanted) as [Hroom | Hfull].
    + rewrite walk_candidates_visit by assumption. cbn zeta.
      cbn [result fst].
      set (span := blockSpan w (Candidate.piece c)).
      destruct (walk_blocks_regular n_wanted peer
                  (range (fst span) (snd span)) blocks w) as [Hw _].
      rewrite Hw.
      destruct (walk_blocks_regular_result n_wanted peer
                  (range (fst span) (snd span)) blocks w)
        as (Hkeep1 & Hsize1 & Hfrom1 & Hall1).
      destruct (IH (result (walk_blocks n_wanted false peer
                              (range (fst span) (snd span)) blocks w)) w)
        as (Hkeep & Hsize & Hfrom & Hall).
      repeat split.
      * auto.
      * lia.
      * intros b Hb. apply Hfrom in Hb.
        destruct Hb as [Hb | [Hb He]].
        -- apply Hfrom1 in Hb. destruct Hb as [Hb | [Hb He]]; [now left |].
           right. split; [| assumption].
           apply in_span_of_cons. left. now apply in_range in Hb.
        -- right. split; [| assumption]. apply in_span_of_cons. now right.
      * intros Hlt b Hb He. apply in_span_of_cons in Hb.
        destruct Hb as [Hb | Hb]; [| now apply Hall].
        apply Hkeep, Hall1; [lia | now apply in_range | assumption].
    + rewrite walk_candidates_full by assumption. cbn [result fst].
      repeat split; auto; try lia.
Qed.

Lemma walk_candidates_app_regular n_wanted peer l1 l2 :
  forall blocks (w : World),
  result (walk_candidates n_wanted false peer (l1 ++ l2) blocks w)
  = result (walk_candidates n_wanted false peer l2
              (result (walk_candidates n_wanted false peer l1 blocks w)) w).
Proof.
  induction l1 as [| c l1 IH]; intros blocks w; [reflexivity |].
  destruct (Z_lt_le_dec (BlockSet.size blocks) n_wanted) as [Hroom | Hfull].
  - cbn [app]. rewrite !walk_candidates_visit by assumption. cbn zeta.
    cbn [result fst].
    destruct (walk_blocks_regular n_wanted peer
                (range (fst (blockSpan w (Candidate.piece c)))
                   (snd (blockSpan w (Candidate.piece c)))) blocks w)
      as [Hw _].
    rewrite Hw. apply IH.
  - cbn [app]. rewrite !walk_candidates_full by assumption.
    cbn [result fst]. now rewrite walk_candidates_spent.
Qed.

Lemma in_span_of_visited (w : World) b :
  in_span_of w (visited w) b <-> in_span_of w (result (getCandidates w)) b.
Proof.
  unfold in_span_of. split; intros (c & Hc & Hb); exists c;
    (split; [| assumption]).
  - now apply order_candidates_in in Hc.
  - unfold visited, order_candidates.
    destruct (isSequentialDownload w); cbn [negb]; [assumption |].
    eapply Permutation_in; [| exact Hc].
    apply partial_sort_perm, Nat.le_min_l.
Qed.

(** The picked blocks of a call outside sequential mode. *)
Lemma pick_blocks_regular n_wanted peer (w : World) :
  isSequentialDownload w = false ->
  result (pick_blocks n_wanted peer w)
  = result (walk_candidates n_wanted false peer (visited w)
              BlockSet.empty w).
Proof.
  intros Hseq. rewrite pick_blocks_run. cbn zeta. cbn [result fst].
  now rewrite Hseq.
Qed.

End RegularMode.

(** X8.  Outside sequential mode [next] returns exactly eligible blocks of
    wanted pieces, and stops short of the budget only when there is none
    left: if it returns fewer than [n_wanted] blocks, then every block
    that lies in the span of a wanted piece, can be requested and has
    fewer active requests than the limit (2 in endgame, 1 otherwise) is
    among the returned ones. *)
Theorem next_exhausts_eligible {World Peer : Type}
    {mediator_ : Mediator World Peer} {runtime_ : Runtime World Peer}
    (n_wanted : Z) (peer : Peer) (w : World) :
  isSequentialDownload w = false ->
  let picked := expand (result (next n_wanted peer w)) in
  (forall b, In b picked ->
     clientCanRequestBlock w b = true
     /\ countActiveRequests w b < (if isEndgame w then 2 else 1))
  /\ (Z.of_nat (length picked) < n_wanted ->
      forall p b,
        0 <= p < countAllPieces w ->
        clientCanRequestPiece w p = true ->
        countMissingBlocks w p <> 0 ->
        fst (blockSpan w p) <= b < snd (blockSpan w p) ->
        clientCanRequestBlock w b = true ->
        countActiveRequests w b < (if isEndgame w then 2 else 1) ->
        In b picked).
Proof.
  intros Hseq. cbn zeta.
  destruct (Z.eq_dec n_wanted 0) as [-> | Hnz].
  - cbn. split; [intros b [] | lia].
  - rewrite next_expand by assumption.
    rewrite pick_blocks_regular by assumption.
    destruct (walk_candidates_regular_result n_wanted peer (visited w)
                BlockSet.empty w) as (_ & _ & Hfrom & Hall).
    split.
    + intros b Hb. apply Hfrom in Hb.
      destruct Hb as [[] | [_ He]]. now apply eligible_spec.
    + intros Hlt p b Hp Hcan Hmissing Hb Hreq Hlimit.
      apply Hall; [exact Hlt | | now apply eligible_spec].
      apply in_span_of_visited.
      assert (Hin : In p (map Candidate.piece (result (getCandidates w)))).
      { eapply Permutation_in;
          [symmetry; apply getCandidates_pieces_perm |].
        apply filter_In. split; [now apply in_range |].
        unfold wanted. rewrite Hcan. cbn [andb].
        now apply negb_true_iff, Z.eqb_neq. }
      apply in_map_iff in Hin. destruct Hin as (c & <- & Hc).
      now exists c.
Qed.

Lemma next_exhausts_eligible_witness :
  expand (result (next 5 Scenario.new_peer Scenario.B)) = [0; 2]
  /\ In 2 (expand (result (next 5 Scenario.new_peer Scenario.B))).
Proof.
  split; [vm_compute; reflexivity |].
  pose proof (next_exhausts_eligible 5 Scenario.new_peer Scenario.B eq_refl)
    as [_ Hall].
  apply (Hall ltac:(vm_compute; reflexivity) 0 2).
  - vm_compute. split; [discriminate | reflexivity].
  - reflexivity.
  - vm_compute. discriminate.
  - vm_compute. split; [discriminate | reflexivity].
  - reflexivity.
  - vm_compute. reflexivity.
Defined.

(** X9.  Outside sequential mode the budget goes to the candidates in the
    order the loop visits them: split the visited candidates in the first
    ones and the rest; if a returned block lies in no span of the first
    ones, then every eligible block in the spans of the first ones is
    returned. *)
Theorem next_serves_candidates_in_order {World Peer : Type}
    {mediator_ : Mediator World Peer} {runtime_ : Runtime World Peer}
    (n_wanted : Z) (peer : Peer) (w : World)
    (first rest : list Candidate.t) (b : Z) :
  isSequentialDownload w = false ->
  visited w = first ++ rest ->
  In b (expand (result (next n_wanted peer w))) ->
  ~ in_span_of w first b ->
  forall b',
    in_span_of w first b' ->
    clientCanRequestBlock w b' = true ->
    countActiveRequests w b' < (if isEndgame w then 2 else 1) ->
    In b' (expand (result (next n_wanted peer w))).
Proof.
  intros Hseq Hsplit Hb Hout b' Hspan Hreq Hlimit.
  destruct (Z.eq_dec n_wanted 0) as [-> | Hnz]; [destruct Hb |].
  rewrite next_expand in * by assumption.
  rewrite pick_blocks_regular in * by assumption.
  rewrite Hsplit, walk_candidates_app_regular in *.
  set (served := result (walk_candidates n_wanted false peer first
                           BlockSet.empty w)) in *.
  destruct (walk_candidates_regular_result n_wanted peer first
              BlockSet.empty w) as (_ & _ & Hfrom1 & Hall1).
  fold served in Hfrom1, Hall1.
  destruct (Z_lt_le_dec (BlockSet.size served) n_wanted) as [Hroom | Hfull].
  - destruct (walk_candidates_regular_result n_wanted peer rest served w)
      as (Hkeep & _).
    apply Hkeep, Hall1; [assumption | assumption |].
    now apply eligible_spec.
  - rewrite walk_candidates_spent in Hb by assumption.
    cbn [result fst] in Hb. apply Hfrom1 in Hb.
    destruct Hb as [[] | [Hb _]]. contradiction.
Qed.

Lemma next_serves_candidates_in_order_witness :
  In 4 (expand (result (next 5 Scenario.new_peer Scenario.A))).
Proof.
  apply (next_serves_candidates_in_order 5 Scenario.new_peer Scenario.A
           [Candidate.mk 1 1 0 1] [Candidate.mk 2 2 0 2; Candidate.mk 0 3 0 0]
           8).
  - reflexivity.
  - vm_compute. reflexivity.
  - vm_compute. tauto.
  - intros (c & [<- | []] & Hspan). vm_compute in Hspan.
    destruct Hspan as [_ Hlt]. discriminate Hlt.
  - exists (Candidate.mk 1 1 0 1). split; [now left |].
    vm_compute. split; [discriminate | reflexivity].
  - reflexivity.
  - vm_compute. reflexivity.
Defined.

(** ** What is cancelled *)

Section Cancellations.

Context {World Peer : Type}.
Context {mediator_ : Mediator World Peer} {runtime_ : Runtime World Peer}.

Lemma quiet_justified (tr : list (Event Peer)) : quiet tr -> justified tr.
Proof.
  intros Hq pre P b post ->. unfold quiet in Hq.
  rewrite Forall_forall in Hq.
  specialize (Hq (CancelRequestForBlock P b)).
  cbn in Hq. discriminate Hq. apply in_or_app. right. now left.
Qed.

Lemma justified_cons e (tr : list (Event Peer)) :
  is_cancellation e = false -> justified tr -> justified (e :: tr).
Proof.
  intros He Hj pre P b post Heq.
  destruct pre as [| e' pre]; cbn in Heq.
  - injection Heq as -> _. discriminate He.
  - injection Heq as <- Heq.
    destruct (Hj _ _ _ _ Heq) as (pre' & peers & when & -> & Hin).
    now exists (e :: pre'), peers, when.
Qed.

Lemma justified_app (t1 t2 : list (Event Peer)) :
  justified t1 -> justified t2 -> justified (t1 ++ t2).
Proof.
  intros H1 H2 pre P b post Heq.
  apply app_eq_app in Heq.
  destruct Heq as (l & [[-> Heq] | [-> Heq]]).
  - destruct l as [| e l]; cbn in Heq.
    + destruct (H2 [] P b post) as (pre' & peers & when & Hpre & _);
        [now rewrite <- Heq |].
      now destruct pre'.
    + injection Heq as <- ->.
      apply (H1 pre P b l). reflexivity.
  - destruct (H2 _ _ _ _ Heq) as (pre' & peers & when & -> & Hin).
    exists (t1 ++ pre'), peers, when. split; [| assumption].
    now rewrite <- app_assoc.
Qed.

Lemma victim_active (w : World) block peer P when :
  victim w block peer = Some (P, when) ->
  In (P, when) (getPeersForActiveRequests w block)
  /\ slower_than w (tr_time w)
       (get_piece_speed_bytes_per_second w peer (tr_time w)) (P, when)
     = true
  /\ get_piece_speed_bytes_per_second w peer (tr_time w) <> 0.
Proof.
  unfold victim.
  destruct (Z.eqb_spec (get_piece_speed_bytes_per_second w peer (tr_time w)) 0)
    as [| Hnz]; [discriminate |].
  intros Hfind. apply find_some in Hfind. tauto.
Qed.

Lemma cancelSlowRequest_justified block peer (w : World) :
  justified (calls (cancelSlowRequest block peer w)).
Proof.
  rewrite cancelSlowRequest_calls. unfold cancellations.
  intros pre P' b post Heq.
  destruct (victim w block peer) as [[P when] |] eqn:Hv.
  - apply victim_active in Hv. destruct Hv as [Hin _].
    destruct pre as [| e1 [| e2 pre]]; cbn in Heq.
    + discriminate Heq.
    + injection Heq as <- <- <- _.
      now exists [], (getPeersForActiveRequests w block), when.
    + injection Heq as _ _ Heq. now destruct pre.
  - destruct pre as [| e1 pre]; cbn in Heq; [discriminate Heq |].
    injection Heq as _ Heq. now destruct pre.
Qed.

Lemma preempt_justified is_sequential block peer (w : World) :
  justified (calls (preempt is_sequential block peer w)).
Proof.
  unfold preempt.
  destruct is_sequential; [| apply quiet_justified; constructor].
  rewrite run_ask_bind. cbn [calls snd].
  apply justified_cons; [reflexivity |].
  destruct (0 <? countActiveRequests w block).
  - apply cancelSlowRequest_justified.
  - apply quiet_justified. constructor.
Qed.

Lemma walk_blocks_justified n_wanted is_sequential peer todo :
  forall blocks (w : World),
  justified (calls (walk_blocks n_wanted is_sequential peer todo blocks w)).
Proof.
  induction todo as [| block rest IH]; intros blocks w.
  - apply quiet_justified. constructor.
  - destruct (Z_lt_le_dec (BlockSet.size blocks) n_wanted) as [Hroom | Hfull].
    + destruct (clientCanRequestBlock w block) eqn:Hcan.
      * rewrite walk_blocks_visit by assumption. cbn zeta.
        cbn [calls snd]. apply justified_cons; [reflexivity |].
        apply justified_app; [apply preempt_justified |].
        apply justified_cons; [reflexivity |].
        apply justified_cons; [reflexivity |]. apply IH.
      * rewrite walk_blocks_skip by assumption. cbn zeta.
        cbn [calls snd]. apply justified_cons; [reflexivity | apply IH].
    + rewrite walk_blocks_full by assumption.
      apply quiet_justified. constructor.
Qed.

Lemma walk_candidates_justified n_wanted is_sequential peer candidates :
  forall blocks (w : World),
  justified (calls (walk_candidates n_wanted is_sequential peer candidates
                      blocks w)).
Proof.
  induction candidates as [| c rest IH]; intros blocks w.
  - apply quiet_justified. constructor.
  - destruct (Z_lt_le_dec (BlockSet.size blocks) n_wanted) as [Hroom | Hfull].
    + rewrite walk_candidates_visit by assumption. cbn zeta.
      cbn [calls snd]. apply justified_cons; [reflexivity |].
      apply justified_app; [apply walk_blocks_justified | apply IH].
    + rewrite walk_candidates_full by assumption.
      apply quiet_justified. constructor.
Qed.

End Cancellations.

(** X10.  [next] cancels only what the mediator reported: every call of
    [tr_cancelRequestForBlock(P, b)] that it makes comes right after the
    query [getPeersForActiveRequests(b)] for the same block, and [P] is a
    peer of the answer to that query. *)
Theorem next_cancels_only_active_requests {World Peer : Type}
    {mediator_ : Mediator World Peer} {runtime_ : Runtime World Peer}
    (n_wanted : Z) (peer : Peer) (w : World) :
  forall pre P b post,
    calls (next n_wanted peer w) = pre ++ CancelRequestForBlock P b :: post ->
    exists pre' peers when,
      pre = pre' ++ [GetPeersForActiveRequests b peers]
      /\ In (P, when) peers.
Proof.
  change (justified (calls (next n_wanted peer w))).
  destruct (Z.eq_dec n_wanted 0) as [-> | Hnz].
  - apply quiet_justified. constructor.
  - rewrite next_run, pick_blocks_run by assumption. cbn zeta.
    cbn [calls snd].
    apply justified_app; [apply quiet_justified, getCandidates_quiet |].
    apply justified_cons; [reflexivity |]. apply walk_candidates_justified.
Qed.

Lemma next_cancels_only_active_requests_witness :
  exists pre' peers when,
    [CountAllPieces 1; ClientCanRequestPiece 0 true;
     CountMissingBlocks 0 1; IsSequentialDownload true;
     SequentialDownloadFromPiece 0; Priority 0 0;
     IsSequentialDownload true; BlockSpan 0 (10, 11);
     ClientCanRequestBlock 10 true; CountActiveRequests 10 1;
     GetPeersForActiveRequests 10 [(Scenario.old_peer, 99)]]
    = pre' ++ [GetPeersForActiveRequests 10 peers]
    /\ In (Scenario.old_peer, when) peers.
Proof.
  apply (next_cancels_only_active_requests 3 Scenario.new_peer Scenario.D
           _ Scenario.old_peer 10
           [CountActiveRequests 10 0; IsEndgame false]).
  vm_compute. reflexivity.
Defined.

(** ** When nothing is wanted *)

(** X11.  When no piece of the transfer is wanted (none can be requested
    with blocks missing; a transfer without pieces is such a one), [next]
    returns no span whatever the budget, leaves the transfer as it is and
    asks the mediator for no block span and about no block: after listing
    the candidates it only reads the sequential flag. *)
Theorem next_nothing_wanted {World Peer : Type}
    {mediator_ : Mediator World Peer} {runtime_ : Runtime World Peer}
    (n_wanted : Z) (peer : Peer) (w : World) :
  (forall p, 0 <= p < countAllPieces w ->
     clientCanRequestPiece w p = false \/ countMissingBlocks w p = 0) ->
  result (getCandidates w) = []
  /\ result (next n_wanted peer w) = []
  /\ final (next n_wanted peer w) = w
  /\ calls (next n_wanted peer w)
     = if n_wanted =? 0 then []
       else calls (getCandidates w)
              ++ [IsSequentialDownload (isSequentialDownload w)].
Proof.
  intros Hnone.
  assert (Hcs : result (getCandidates w) = []).
  { apply map_eq_nil with (f := Candidate.piece).
    apply Permutation_nil. symmetry.
    rewrite (getCandidates_pieces_perm w).
    assert (Hf : forall l, (forall p, In p l -> wanted w p = false) ->
                           filter (wanted w) l = []).
    { induction l as [| x l IH]; intros H; cbn; [reflexivity |].
      rewrite (H x) by now left. apply IH. intros p Hp. apply H. now right. }
    rewrite Hf; [reflexivity |].
    intros p Hp. apply in_range in Hp. unfold wanted.
    destruct (Hnone p Hp) as [-> | ->]; [reflexivity |].
    cbn. apply andb_false_r. }
  assert (Hv : visited w = []).
  { unfold visited, order_candidates. rewrite Hcs.
    destruct (isSequentialDownload w); cbn [negb]; [reflexivity |].
    apply Permutation_nil. apply partial_sort_perm. cbn. lia. }
  split; [exact Hcs |].
  destruct (Z.eqb_spec n_wanted 0) as [-> | Hnz]; [now repeat split |].
  rewrite next_run, pick_blocks_run by assumption. cbn zeta.
  rewrite Hv. cbn. repeat split.
Qed.

Lemma next_nothing_wanted_witness :
  result (next 5 Scenario.new_peer Further.complete) = [].
Proof.
  apply (next_nothing_wanted 5 Scenario.new_peer Further.complete).
  intros p Hp. right.
  change (countAllPieces Further.complete) with 1 in Hp.
  replace p with 0 by lia. reflexivity.
Defined.

(** ** The speed that a cancellation needs *)

(** X12.  As long as the discount does not leave the range of [int], the
    routine cancels only for a new peer at least twice as fast: if, for
    every active request [(P_cur, t)] of the block, the speed of [P_cur]
    is not negative, [t] is not after [now] and
    [(now - t) * v_new < 2^31 * BlockSize], then a request that
    [cancelSlowRequest] cancels belongs to a peer [P] with
    [0 < 2 * speed(P) <= v_new]. *)
Theorem cancelSlowRequest_needs_double_speed {World Peer : Type}
    {mediator_ : Mediator World Peer} {runtime_ : Runtime World Peer}
    (block : Z) (peer : Peer) (w : World) :
  let now := tr_time w in
  let v_new := get_piece_speed_bytes_per_second w peer now in
  let speed := fun p => get_piece_speed_bytes_per_second w p now in
  0 <= v_new ->
  (forall request,
     In request (getPeersForActiveRequests w block) ->
     0 <= speed (fst request)
     /\ 0 <= now - snd request
     /\ (now - snd request) * v_new < 2 ^ 31 * BlockSize) ->
  forall P b,
    In (CancelRequestForBlock P b) (calls (cancelSlowRequest block peer w)) ->
    b = block /\ 0 < 2 * speed P <= v_new.
Proof.
  cbn zeta. intros Hnew Hbounds P b Hin.
  rewrite cancelSlowRequest_calls in Hin. unfold cancellations in Hin.
  destruct Hin as [Hin | Hin]; [discriminate Hin |].
  destruct (victim w block peer) as [[P' when] |] eqn:Hv; [| destruct Hin].
  destruct Hin as [[= <- <-] | []].
  apply victim_active in Hv. destruct Hv as (Hactive & Hslow & Hnz).
  destruct (Hbounds _ Hactive) as (Hcur & Hdt & Hprod).
  cbn [fst snd] in *.
  unfold slower_than in Hslow. cbn [fst snd] in Hslow.
  apply andb_true_iff in Hslow. destruct Hslow as [Hcur0 Hslow].
  apply negb_true_iff, Z.eqb_neq in Hcur0.
  split; [reflexivity |]. split; [lia |].
  set (v_new := get_piece_speed_bytes_per_second w peer (tr_time w)) in *.
  set (v_cur := get_piece_speed_bytes_per_second w P' (tr_time w)) in *.
  set (dt := tr_time w - when) in *.
  destruct (Z_lt_le_dec (v_new / v_cur) 2) as [Hq | Hq].
  - exfalso.
    assert (Hd0 : 0 <= dt * v_new / BlockSize)
      by (apply Z.div_pos; [apply Z.mul_nonneg_nonneg; lia | reflexivity]).
    assert (Hd : dt * v_new / BlockSize < 2 ^ 31)
      by (apply Z.div_lt_upper_bound; [reflexivity | lia]).
    assert (Hdt64 : dt < Int.u64_mod).
    { unfold Int.u64_mod. unfold BlockSize in Hprod. nia. }
    assert (Hprod64 : dt * v_new < Int.u64_mod).
    { unfold Int.u64_mod. unfold BlockSize in Hprod. lia. }
    unfold dt in *.
    rewrite slow_score_exact in Hslow by lia.
    apply is_slow_ge_2 in Hslow. lia.
  - pose proof (Z.mul_div_le v_new v_cur ltac:(lia)). nia.
Qed.

Lemma cancelSlowRequest_needs_double_speed_witness :
  10 = 10 /\ 0 < 2 * 1000 <= 10000.
Proof.
  refine (cancelSlowRequest_needs_double_speed 10 Scenario.new_peer
            Scenario.D _ _ Scenario.old_peer 10 _).
  - vm_compute. discriminate.
  - intros request [<- | []]. vm_compute.
    repeat split; discriminate.
  - vm_compute. auto.
Defined.

(** ** The effect of a call on the transfer *)

Section Effects.

Context {World Peer : Type}.
Context {mediator_ : Mediator World Peer} {runtime_ : Runtime World Peer}.

Lemma logs_replay (w : World) tr w' : logs w tr w' -> w' = replay tr w.
Proof.
  induction 1 as [| w e tr w' Ha _ IH | w P b tr w' _ IH]; cbn.
  - reflexivity.
  - destruct e; try exact IH. destruct Ha.
  - exact IH.
Qed.

Lemma cancelled_app (t1 t2 : list (Event Peer)) :
  cancelled (t1 ++ t2) = (cancelled t1 + cancelled t2)%nat.
Proof. unfold cancelled. now rewrite filter_app, length_app. Qed.

Lemma offered_app (t1 t2 : list (Event Peer)) :
  offered (t1 ++ t2) = (offered t1 + offered t2)%nat.
Proof. unfold offered. now rewrite filter_app, length_app. Qed.

Lemma quiet_cancelled (tr : list (Event Peer)) :
  quiet tr -> cancelled tr = 0%nat.
Proof.
  unfold quiet, cancelled. induction 1 as [| e tr He _ IH]; [reflexivity |].
  cbn. destruct e; try exact IH. discriminate He.
Qed.

Lemma preempt_cancelled is_sequential block peer (w : World) :
  (cancelled (calls (preempt is_sequential block peer w)) <= 1)%nat.
Proof.
  rewrite preempt_run. destruct is_sequential; [| cbn; lia].
  destruct (0 <? countActiveRequests w block); [| cbn; lia].
  cbn [calls snd]. unfold cancelled, cancellations. cbn.
  destruct (victim w block peer) as [[P when] |]; cbn; lia.
Qed.

Lemma walk_blocks_cancelled n_wanted is_sequential peer todo :
  forall blocks (w : World),
  (cancelled (calls (walk_blocks n_wanted is_sequential peer todo blocks w))
   <= offered (calls (walk_blocks n_wanted is_sequential peer todo
                        blocks w)))%nat.
Proof.
  induction todo as [| block rest IH]; intros blocks w.
  - cbn. lia.
  - destruct (Z_lt_le_dec (BlockSet.size blocks) n_wanted) as [Hroom | Hfull].
    + destruct (clientCanRequestBlock w block) eqn:Hcan.
      * rewrite walk_blocks_visit by assumption. cbn zeta.
        cbn [calls snd].
        set (p := preempt is_sequential block peer w).
        specialize (IH (after_check (final p) block blocks) (final p)).
        pose proof (preempt_cancelled is_sequential block peer w) as Hp.
        fold p in Hp.
        change (ClientCanRequestBlock block true :: ?t)
          with ([ClientCanRequestBlock (Peer := Peer) block true] ++ t).
        rewrite !cancelled_app, !offered_app.
        change (CountActiveRequests block ?n :: IsEndgame ?e :: ?t)
          with ([CountActiveRequests (Peer := Peer) block n; IsEndgame e]
                  ++ t).
        rewrite !cancelled_app, !offered_app. cbn [cancelled offered filter
          is_cancellation is_offer length Nat.add] in *. lia.
      * rewrite walk_blocks_skip by assumption. cbn zeta.
        cbn [calls snd]. specialize (IH blocks w).
        unfold cancelled, offered in *. cbn. exact IH.
    + rewrite walk_blocks_full by assumption. cbn. lia.
Qed.

Lemma walk_candidates_cancelled n_wanted is_sequential peer candidates :
  forall blocks (w : World),
  (cancelled (calls (walk_candidates n_wanted is_sequential peer candidates
                       blocks w))
   <= offered (calls (walk_candidates n_wanted is_sequential peer candidates
                        blocks w)))%nat.
Proof.
  induction candidates as [| c rest IH]; intros blocks w.
  - cbn. lia.
  - destruct (Z_lt_le_dec (BlockSet.size blocks) n_wanted) as [Hroom | Hfull].
    + rewrite walk_candidates_visit by assumption. cbn zeta.
      cbn [calls snd].
      set (span := blockSpan w (Candidate.piece c)).
      set (wb := walk_blocks n_wanted is_sequential peer
                   (range (fst span) (snd span)) blocks w).
      pose proof (walk_blocks_cancelled n_wanted is_sequential peer
                    (range (fst span) (snd span)) blocks w) as Hb.
      fold wb in Hb. specialize (IH (result wb) (final wb)).
      change (BlockSpan (Candidate.piece c) span :: ?t)
        with ([BlockSpan (Peer := Peer) (Candidate.piece c) span] ++ t).
      rewrite !cancelled_app, !offered_app. cbn [cancelled offered filter
        is_cancellation is_offer length Nat.add]. lia.
    + rewrite walk_candidates_full by assumption. cbn. lia.
Qed.

End Effects.

(** X13.  [next] changes the transfer by its cancellations only: the state
    it leaves is the state it was called in with the cancellations of its
    log applied in order.  It makes at most one cancellation for each
    block that the mediator said could be requested, and none while
    listing the candidates. *)
Theorem next_effect {World Peer : Type}
    {mediator_ : Mediator World Peer} {runtime_ : Runtime World Peer}
    (n_wanted : Z) (peer : Peer) (w : World) :
  final (next n_wanted peer w) = replay (calls (next n_wanted peer w)) w
  /\ (length (filter is_cancellation (calls (next n_wanted peer w)))
      <= length (filter is_offer (calls (next n_wanted peer w))))%nat
  /\ filter is_cancellation (calls (getCandidates w)) = [].
Proof.
  split; [apply logs_replay, next_faithful |].
  assert (Hq : cancelled (calls (getCandidates w)) = 0%nat)
    by apply quiet_cancelled, getCandidates_quiet.
  split; [| now apply length_zero_iff_nil].
  change (cancelled (calls (next n_wanted peer w))
          <= offered (calls (next n_wanted peer w)))%nat.
  destruct (Z.eq_dec n_wanted 0) as [-> | Hnz]; [cbn; lia |].
  rewrite next_run, pick_blocks_run by assumption. cbn zeta.
  cbn [calls snd].
  change (IsSequentialDownload ?r :: ?t)
    with ([IsSequentialDownload (Peer := Peer) r] ++ t).
  rewrite !cancelled_app, !offered_app, Hq.
  pose proof (walk_candidates_cancelled n_wanted (isSequentialDownload w)
                peer (visited w) BlockSet.empty w).
  cbn [cancelled offered filter is_cancellation is_offer length Nat.add]
    in *. lia.
Qed.

(** ** How many spans *)

Lemma spans_nonempty_total spans :
  spans_nonempty spans -> Z.of_nat (length spans) <= span_total spans.
Proof.
  unfold spans_nonempty, span_total.
  induction 1 as [| s spans Hs _ IH]; cbn [length fold_right]; lia.
Qed.

(** X14.  On strictly ascending block indices the span packer covers as
    many blocks as it was given, returns no more spans than blocks, and
    returns a span as soon as there is a block. *)
Theorem makeSpans_counts (n_blocks : Z) (blocks : list Z) :
  n_blocks <= Int.UINT32_MAX ->
  ascending blocks ->
  Forall (fun b => 0 <= b < n_blocks) blocks ->
  span_total (makeSpans blocks) = Z.of_nat (length blocks)
  /\ (length (makeSpans blocks) <= length blocks)%nat
  /\ (blocks <> [] -> makeSpans blocks <> []).
Proof.
  intros Hn Hasc Hall.
  assert (Hidx : Forall (fun b => 0 <= b < Int.UINT32_MAX) blocks).
  { eapply Forall_impl; [| exact Hall]. cbn beta. intros; lia. }
  destruct (makeSpans_spec blocks Hasc Hidx) as (He & Ht & Hne & _).
  split; [exact Ht |]. split.
  - pose proof (spans_nonempty_total _ Hne). lia.
  - intros Hblocks Hspans. rewrite Hspans in He. cbn in He. congruence.
Qed.

Lemma makeSpans_counts_witness :
  span_total (makeSpans [4; 5; 6; 7; 9; 11]) = 6
  /\ (length (makeSpans [4; 5; 6; 7; 9; 11]%Z) <= 6)%nat.
Proof.
  destruct (makeSpans_counts 12 [4; 5; 6; 7; 9; 11]) as (Ht & Hl & _).
  - vm_compute. discriminate.
  - repeat constructor.
  - repeat constructor; lia.
  - split; [exact Ht | exact Hl].
Defined.

(** ** A larger budget *)

Section Budget.

Context {World Peer : Type}.
Context {mediator_ : Mediator World Peer} {runtime_ : Runtime World Peer}.




End Budget.


